(** * apigpio: tick arithmetic, the debounce decorator and the DHT11 decoder

    A shallow embedding of [apigpio/utils.py] (tick_diff and the debounce
    decorator) and of [samples/gpio_dht11.py] (the edge-driven decoder, the
    session methods around it and the loop of main), together with the
    properties of the specification that concern them and further
    properties read off the code.

    Python integers are unbounded, so they are modelled by [Z]; the bit
    operations [<<] and [&] are [Z.shiftl] and [Z.land].  Objects that the
    program mutates in place and shares (the [_decorated] object stored as a
    class attribute) live in an explicit store indexed by addresses. *)

From Stdlib Require Import ZArith List Bool Lia Sorted.
From stdpp Require Import base option gmap.
Import ListNotations.

Local Open Scope Z_scope.

(** ** Python values and exceptions *)

(** The positional arguments a callback receives: integers (gpio, level,
    tick) or a reference to an instance (the receiver that
    [functools.partial] puts in front). *)
Inductive pyval : Type :=
| VInt (n : Z)
| VRef (o : nat).

Inductive exn : Type :=
| IndexError
| TypeError
| AttributeError
| KeyError.

(** The outcome of a call: it returns, or it raises. *)
Inductive result (A : Type) : Type :=
| Ok (a : A)
| Raise (e : exn).
Arguments Ok {A} a.
Arguments Raise {A} e.

(** Sequencing: an exception raised by the first call skips the rest. *)
#[global] Instance result_bind : MBind result :=
  fun A B (k : A -> result B) (r : result A) =>
    match r with
    | Ok a => k a
    | Raise e => Raise e
    end.

(** ** apigpio/utils.py *)

Module Utils.

(** [tick_diff(t1, t2)]: [diff = t2 - t1], plus [1 << 32] when negative. *)
Definition tick_diff (t1 t2 : Z) : Z :=
  let diff := t2 - t1 in
  if diff <? 0 then diff + Z.shiftl 1 32 else diff.

(** [max_tick = 0xFFFFFFFF] of [debounce]. *)
Definition max_tick : Z := 0xFFFFFFFF.

(** The attributes of a [_decorated] object.  [_fn] names the wrapped
    callback. *)
Record _decorated : Type := Decorated {
  _fn : nat;
  last : Z;
  is_method : bool
}.

(** [_decorated.__init__(self, pigpio_cb)]. *)
Definition __init__ (pigpio_cb : nat) : _decorated :=
  {| _fn := pigpio_cb; last := 0; is_method := false |}.

(** [args[i]] on the argument tuple, for a non-negative index. *)
Definition arg (args : list pyval) (i : nat) : result pyval :=
  match nth_error args i with
  | Some v => Ok v
  | None => Raise IndexError
  end.

(** The tick is compared with and subtracted from an integer: anything but
    an integer raises [TypeError]. *)
Definition as_int (v : pyval) : result Z :=
  match v with
  | VInt n => Ok n
  | VRef _ => Raise TypeError
  end.

(** The elapsed time computed by [__call__] (lines 41-44). *)
Definition delay (last_ tick : Z) : Z :=
  if last_ >? tick then max_tick - last_ + tick else tick - last_.

Definition set_last (tick : Z) (d : _decorated) : _decorated :=
  {| _fn := _fn d; last := tick; is_method := is_method d |}.

(** The position of the tick in the argument tuple (lines 36-39). *)
Definition tick_index (self : _decorated) : nat :=
  if is_method self then 3%nat else 2%nat.

(** The outcome of one [__call__]: the object afterwards and, when the call
    went through, the invocation of the wrapped callback. *)
Record outcome : Type := Outcome {
  self' : _decorated;
  invoked : option (nat * list pyval)
}.

(** [_decorated.__call__(self, *args, **kwargs)], in the closure of
    [debounce(threshold)]: [threshold] below is the decorator's argument, in
    milliseconds, and line 25 multiplies it by 1000.  The keyword arguments
    are only passed on to the callback and are left out; the callback is
    taken to return (an exception in it would skip line 49). *)
Definition __call__ (threshold : Z) (self : _decorated) (args : list pyval)
  : result outcome :=
  let threshold := threshold * 1000 in
  v ← arg args (tick_index self);
  tick ← as_int v;
  let delay := delay (last self) tick in
  if delay >? threshold then
    Ok {| self' := set_last tick self; invoked := Some (_fn self, args) |}
  else
    Ok {| self' := self; invoked := None |}.

(** *** The decorator on a method: one shared object

    [@debounce() def cb(self, gpio, level, tick)] in a class body stores ONE
    [_decorated] object as a class attribute.  Reading [inst.cb] calls
    [__get__] on that object, which sets [is_method] and returns
    [functools.partial(self, instance)]: a callable that keeps a reference
    to the object (not a copy) and the instance as first argument.  The
    store maps addresses to [_decorated] objects; [calls] is the sequence of
    invocations of wrapped callbacks so far. *)

Record partial : Type := Partial {
  func : nat;
  bound : list pyval
}.

Record world : Type := World {
  objects : gmap nat _decorated;
  calls : list (nat * list pyval)
}.

Definition set_is_method (d : _decorated) : _decorated :=
  {| _fn := _fn d; last := last d; is_method := true |}.

(** [_decorated.__get__(self, instance, type=None)], [self] by address. *)
Definition __get__ (self : nat) (instance : nat) (w : world) : world * partial :=
  ({| objects := alter set_is_method self (objects w); calls := calls w |},
   {| func := self; bound := [VRef instance] |}).

(** Calling [functools.partial(self, instance)] with [args]: [__call__] on
    the object at [func], with the bound arguments in front; the object is
    updated in place.  [None] only for an address that holds no object. *)
Definition call_partial (threshold : Z) (p : partial) (args : list pyval)
    (w : world) : option (result world) :=
  self ← objects w !! func p;
  Some (o ← __call__ threshold self (bound p ++ args);
        Ok {| objects := <[func p := self' o]> (objects w);
              calls := calls w ++ option_list (invoked o) |}).

(** The stored last-accepted tick that decides the calls made through [p]. *)
Definition last_of (p : partial) (w : world) : option Z :=
  last <$> objects w !! func p.

(** A sequence of calls to one [_decorated] object, in order: the object
    after the last call and the invocations of the wrapped callback that
    went through. *)
Fixpoint feed (threshold : Z) (self : _decorated) (calls : list (list pyval))
  : result (_decorated * list (nat * list pyval)) :=
  match calls with
  | [] => Ok (self, [])
  | args :: rest =>
      o ← __call__ threshold self args;
      r ← feed threshold (self' o) rest;
      Ok (r.1, option_list (invoked o) ++ r.2)
  end.

(** A class whose method is decorated with [debounce()]: the class
    attribute is the object at address 0, wrapping the callback 7. *)
Definition class_world : world :=
  {| objects := {[ 0%nat := __init__ 7 ]}; calls := [] |}.

End Utils.

(** ** samples/gpio_dht11.py *)

Module DHT11.

(** [DHT11Result], a named tuple with three class constants. *)
Record DHT11Result : Type := Result {
  error_code : Z;
  result_temperature : Z;
  result_humidity : Z
}.

Definition ERR_NO_ERROR : Z := 0.
Definition ERR_MISSING_DATA : Z := 1.
Definition ERR_CRC : Z := 2.

Definition is_valid (r : DHT11Result) : bool := error_code r =? ERR_NO_ERROR.

(** The attributes of a [DHT11] object that the edge handlers read or write.
    [checksum] is not assigned by the constructor: it exists only once a
    handler has assigned it, hence the option.  [tasks] counts the
    [set_watchdog(gpio, 0)] coroutines handed to [loop.create_task]; the
    sample runs as a script, so the module-level [loop] of line 196 is
    bound. *)
Record DHT11 : Type := State {
  temperature : Z;
  humidity : Z;
  _high_tick : Z;
  _bit : Z;
  _error : Z;
  checksum : option Z;
  tasks : nat
}.

(** [DHT11.__init__]. *)
Definition init : DHT11 :=
  {| temperature := 0; humidity := 0; _high_tick := 0; _bit := 40;
     _error := ERR_NO_ERROR; checksum := None; tasks := 0 |}.

Definition set_bit (v : Z) (s : DHT11) : DHT11 :=
  {| temperature := temperature s; humidity := humidity s;
     _high_tick := _high_tick s; _bit := v; _error := _error s;
     checksum := checksum s; tasks := tasks s |}.

Definition set_checksum (v : Z) (s : DHT11) : DHT11 :=
  {| temperature := temperature s; humidity := humidity s;
     _high_tick := _high_tick s; _bit := _bit s; _error := _error s;
     checksum := Some v; tasks := tasks s |}.

Definition set_temperature (v : Z) (s : DHT11) : DHT11 :=
  {| temperature := v; humidity := humidity s;
     _high_tick := _high_tick s; _bit := _bit s; _error := _error s;
     checksum := checksum s; tasks := tasks s |}.

Definition set_humidity (v : Z) (s : DHT11) : DHT11 :=
  {| temperature := temperature s; humidity := v;
     _high_tick := _high_tick s; _bit := _bit s; _error := _error s;
     checksum := checksum s; tasks := tasks s |}.

Definition set_error (v : Z) (s : DHT11) : DHT11 :=
  {| temperature := temperature s; humidity := humidity s;
     _high_tick := _high_tick s; _bit := _bit s; _error := v;
     checksum := checksum s; tasks := tasks s |}.

Definition set_high_tick (v : Z) (s : DHT11) : DHT11 :=
  {| temperature := temperature s; humidity := humidity s;
     _high_tick := v; _bit := _bit s; _error := _error s;
     checksum := checksum s; tasks := tasks s |}.

(** [loop.create_task(self._pi.set_watchdog(self._gpio, 0))]. *)
Definition create_task (s : DHT11) : DHT11 :=
  {| temperature := temperature s; humidity := humidity s;
     _high_tick := _high_tick s; _bit := _bit s; _error := _error s;
     checksum := checksum s; tasks := S (tasks s) |}.

(** Reading [self.checksum]. *)
Definition get_checksum (s : DHT11) : result Z :=
  match checksum s with
  | Some c => Ok c
  | None => Raise AttributeError
  end.

(** Lines 85-87: the bit a rising edge carries. *)
Definition bit_value (diff : Z) : Z := if diff >=? 50 then 1 else 0.

(** Lines 88-89: a pulse of 200 microseconds or more overwrites the
    checksum. *)
Definition force_bad_checksum (diff : Z) (self : DHT11) : DHT11 :=
  if diff >=? 200 then set_checksum 256 self else self.

(** [DHT11._edge_RISE(self, tick, diff)]. *)
Definition _edge_RISE (self : DHT11) (tick diff : Z) : result DHT11 :=
  let val := bit_value diff in
  let self := force_bad_checksum diff self in
  if _bit self >=? 40 then
    Ok (set_bit 40 self)
  else if _bit self >=? 32 then
    c ← get_checksum self;
    let c := Z.shiftl c 1 + val in
    let self := set_checksum c self in
    if _bit self =? 39 then
      let self := create_task self in
      let total := humidity self + temperature self in
      if negb (Z.land total 255 =? c) then
        Ok (set_error ERR_CRC self)
      else
        Ok (set_bit (_bit self + 1) self)
    else
      Ok (set_bit (_bit self + 1) self)
  else if (16 <=? _bit self) && (_bit self <? 24) then
    let self := set_temperature (Z.shiftl (temperature self) 1 + val) self in
    let self := set_error ERR_NO_ERROR self in
    Ok (set_bit (_bit self + 1) self)
  else if (0 <=? _bit self) && (_bit self <? 8) then
    let self := set_humidity (Z.shiftl (humidity self) 1 + val) self in
    let self := set_error ERR_NO_ERROR self in
    Ok (set_bit (_bit self + 1) self)
  else
    Ok (set_bit (_bit self + 1) self).

(** [DHT11._edge_FALL(self, tick, diff)]. *)
Definition _edge_FALL (self : DHT11) (tick diff : Z) : result DHT11 :=
  let self := set_high_tick tick self in
  if diff <=? 250000 then
    Ok self
  else
    let self := set_bit (-2) self in
    let self := set_checksum 0 self in
    let self := set_temperature 0 self in
    let self := set_humidity 0 self in
    Ok self.

(** [DHT11._edge_EITHER(self, tick, diff)]. *)
Definition _edge_EITHER (self : DHT11) (tick diff : Z) : result DHT11 :=
  Ok (create_task self).

(** The level of a notification.  The dictionary of line 72 has three keys,
    [apigpio.FALLING_EDGE], [apigpio.RISING_EDGE] and [apigpio.EITHER_EDGE]
    (distinct integers defined by the apigpio package); any other level is
    not a key. *)
Inductive level : Type :=
| FALLING_EDGE
| RISING_EDGE
| EITHER_EDGE
| other_level (n : Z).

(** [level_handlers[level]]. *)
Definition level_handlers (l : level)
  : result (DHT11 -> Z -> Z -> result DHT11) :=
  match l with
  | FALLING_EDGE => Ok _edge_FALL
  | RISING_EDGE => Ok _edge_RISE
  | EITHER_EDGE => Ok _edge_EITHER
  | other_level _ => Raise KeyError
  end.

(** [DHT11.either_edge_callback(self, gpio, level, tick)]. *)
Definition either_edge_callback (self : DHT11) (gpio : Z) (l : level)
    (tick : Z) : result DHT11 :=
  handler ← level_handlers l;
  let diff := Utils.tick_diff (_high_tick self) tick in
  handler self tick diff.

(** The notifications delivered to one decoder, in order of arrival; each
    runs the callback to its end before the next (section 5 of the
    specification).  An exception in a callback ends the run. *)
Fixpoint deliver (gpio : Z) (evs : list (level * Z)) (self : DHT11)
  : result DHT11 :=
  match evs with
  | [] => Ok self
  | (l, tick) :: evs' =>
      self ← either_edge_callback self gpio l tick;
      deliver gpio evs' self
  end.

(** The value [__anext__] returns (lines 174-176). *)
Definition snapshot (self : DHT11) : DHT11Result :=
  {| error_code := _error self;
     result_temperature := temperature self;
     result_humidity := humidity self |}.

(** [DHT11.__anext__]: the coroutine sleeps and runs [read], which only
    talks to the daemon and sleeps; the notifications [evs] that arrive in
    the meantime run the callback; then the attributes are packed into a
    [DHT11Result]. *)
Definition __anext__ (gpio : Z) (evs : list (level * Z)) (self : DHT11)
  : result (DHT11 * DHT11Result) :=
  self ← deliver gpio evs self;
  Ok (self, snapshot self).

(** The decoder states that a run can reach from a fresh decoder. *)
Inductive reachable : DHT11 -> Prop :=
| reachable_init : reachable init
| reachable_step s gpio l tick s' :
    reachable s ->
    either_edge_callback s gpio l tick = Ok s' ->
    reachable s'.

(** What every reachable state satisfies (proved below): the position stays between -2 and 40, the checksum exists as soon as
    a frame has started, and the error is never [ERR_MISSING_DATA]. *)
Definition well_formed (s : DHT11) : Prop :=
  -2 <= _bit s <= 40 /\
  (_bit s < 40 -> is_Some (checksum s)) /\
  (_error s = ERR_NO_ERROR \/ _error s = ERR_CRC).

(** The checksum byte of the current frame holds a value that no sum of two
    bytes masked to 8 bits can equal. *)
Definition checksum_spoiled (s : DHT11) : Prop :=
  32 <= _bit s /\
  (_bit s <= 39 -> exists c, checksum s = Some c /\ 512 <= c).

(** *** Runs of the decoder *)

(** The differences the callback computes along a run, with the level of
    each notification. *)
Fixpoint observed_diffs (gpio : Z) (evs : list (level * Z)) (self : DHT11)
  : list (level * Z) :=
  match evs with
  | [] => []
  | (l, tick) :: evs' =>
      (l, Utils.tick_diff (_high_tick self) tick) ::
      match either_edge_callback self gpio l tick with
      | Ok self => observed_diffs gpio evs' self
      | Raise _ => []
      end
  end.

Definition is_rising (l : level) : bool :=
  match l with
  | RISING_EDGE => true
  | _ => false
  end.

(** A falling edge that starts a new frame: line 123 does not return. *)
Definition starts_frame (self : DHT11) (l : level) (tick : Z) : bool :=
  match l with
  | FALLING_EDGE => negb (Utils.tick_diff (_high_tick self) tick <=? 250000)
  | _ => false
  end.

(** The run stays within the current frame: every callback returns and no
    falling edge starts a new frame. *)
Fixpoint same_frame (gpio : Z) (evs : list (level * Z)) (self : DHT11)
  : bool :=
  match evs with
  | [] => true
  | (l, tick) :: evs' =>
      negb (starts_frame self l tick) &&
      match either_edge_callback self gpio l tick with
      | Ok self => same_frame gpio evs' self
      | Raise _ => false
      end
  end.

(** The bits of a byte, most significant first. *)
Definition byte_bits (b : Z) : list bool :=
  map (Z.testbit b) [7; 6; 5; 4; 3; 2; 1; 0].

(** The 42 pulses of a frame: two header pulses, the humidity byte, a byte
    of zeros, the temperature byte, a byte of zeros, the checksum byte. *)
Definition frame_bits (h t c : Z) : list bool :=
  [false; false] ++ byte_bits h ++ byte_bits 0 ++
  byte_bits t ++ byte_bits 0 ++ byte_bits c.

(** One falling/rising pair per bit, 100 microseconds apart: the rising
    edge comes 70 microseconds after the last falling edge for a 1, and 26
    for a 0. *)
Fixpoint pulses (t0 : Z) (bits : list bool) : list (level * Z) :=
  match bits with
  | [] => []
  | b :: bits' =>
      (RISING_EDGE, t0 + (if b then 70 else 26)) ::
      (FALLING_EDGE, t0 + 100) ::
      pulses (t0 + 100) bits'
  end.

(** A frame that starts with a falling edge at tick [t0]. *)
Definition frame_events (t0 h t c : Z) : list (level * Z) :=
  (FALLING_EDGE, t0) :: pulses t0 (frame_bits h t c).

(** While the frame is incomplete the checksum holds 256 or more. *)
Definition checksum_out_of_range (s : DHT11) : Prop :=
  _bit s <= 39 -> exists c, checksum s = Some c /\ 256 <= c.



(** *** Trains of pulses *)

(** [evs] is a train of rising/falling pairs that carries [bits] to a
    decoder whose last falling edge was at tick [h]: each rising edge comes
    less than 200 microseconds after the falling edge before it and carries
    the bit, and each falling edge stays within the frame. *)
Fixpoint carries (h : Z) (evs : list (level * Z)) (bits : list bool) : bool :=
  match evs, bits with
  | [], [] => true
  | (RISING_EDGE, tr) :: (FALLING_EDGE, tf) :: evs', b :: bits' =>
      (Utils.tick_diff h tr <? 200) &&
      (bit_value (Utils.tick_diff h tr) =? Z.b2z b) &&
      (Utils.tick_diff h tf <=? 250000) &&
      carries tf evs' bits'
  | _, _ => false
  end.

(** The value of a list of bits, most significant first. *)
Definition shift_in (acc : Z) (b : bool) : Z := 2 * acc + Z.b2z b.

Definition byte_of (bits : list bool) : Z := fold_left shift_in bits 0.

(** What the byte that starts at position [lo] holds after a short pulse
    at position [pos]. *)
Definition absorb (lo pos acc : Z) (b : bool) : Z :=
  if (lo <=? pos) && (pos <? lo + 8) then shift_in acc b else acc.

Fixpoint acc_bits (lo pos : Z) (bits : list bool) (acc : Z) : Z :=
  match bits with
  | [] => acc
  | b :: bits' => acc_bits lo (pos + 1) bits' (absorb lo pos acc b)
  end.

(** The positions of the humidity and temperature bytes. *)
Definition in_data (pos : Z) : bool :=
  ((0 <=? pos) && (pos <? 8)) || ((16 <=? pos) && (pos <? 24)).

Fixpoint err_bits (pos : Z) (bits : list bool) (e : Z) : Z :=
  match bits with
  | [] => e
  | _ :: bits' =>
      err_bits (pos + 1) bits' (if in_data pos then ERR_NO_ERROR else e)
  end.

(** The ticks of a run as the 32-bit counter delivers them. *)
Definition wrap_ticks (evs : list (level * Z)) : list (level * Z) :=
  map (fun e : level * Z => (e.1, e.2 mod 2 ^ 32)) evs.

(** Two decoders that differ at most in the number of tasks they have
    scheduled. *)
Definition same_decoding (s s' : DHT11) : Prop :=
  temperature s = temperature s' /\
  humidity s = humidity s' /\
  _high_tick s = _high_tick s' /\
  _bit s = _bit s' /\
  _error s = _error s' /\
  checksum s = checksum s'.

(** Two outcomes that agree: the same exception, or decoders that differ at
    most in their tasks. *)
Definition same_outcome (r r' : result DHT11) : Prop :=
  match r, r' with
  | Ok s, Ok s' => same_decoding s s'
  | Raise e, Raise e' => e = e'
  | _, _ => False
  end.

End DHT11.

(** ** samples/gpio_dht11.py: the session around the decoder *)

Module Session.
Import DHT11.

(** The calls a sensor makes on its [apigpio.Pi] object and on the handle
    of its callback, and its sleeps (in milliseconds), in order.  The
    apigpio constants [PUD_OFF], [EITHER_EDGE], [LOW] and [INPUT] are part
    of the name of the call; [add_callback] is logged with the handle it
    returned.  The calls are taken to return. *)
Inductive pi_call : Type :=
| set_pull_up_down_OFF (gpio : Z)
| set_watchdog (gpio : Z) (timeout : Z)
| add_callback_EITHER_EDGE (gpio : Z) (returned : nat)
| cancel (cb : nat)
| write_LOW (gpio : Z)
| set_mode_INPUT (gpio : Z)
| sleep (ms : Z).

(** A [DHT11] object with the attributes the session methods use, and the
    log of its calls. *)
Record sensor : Type := Sensor {
  _gpio : Z;
  _either_edge_cb : option nat;
  decoder : DHT11;
  log : list pi_call
}.

(** [DHT11(pi, gpio)]. *)
Definition new (gpio : Z) : sensor :=
  {| _gpio := gpio; _either_edge_cb := None; decoder := init; log := [] |}.

Definition call (c : pi_call) (self : sensor) : sensor :=
  {| _gpio := _gpio self; _either_edge_cb := _either_edge_cb self;
     decoder := decoder self; log := log self ++ [c] |}.

Definition set_either_edge_cb (cb : option nat) (self : sensor) : sensor :=
  {| _gpio := _gpio self; _either_edge_cb := cb;
     decoder := decoder self; log := log self |}.

(** [DHT11.register_callbacks]; [cb] is the handle [add_callback]
    returns. *)
Definition register_callbacks (cb : nat) (self : sensor) : sensor :=
  let self := call (add_callback_EITHER_EDGE (_gpio self) cb) self in
  set_either_edge_cb (Some cb) self.

(** [DHT11.connect], and [__aenter__] which awaits it. *)
Definition connect (cb : nat) (self : sensor) : sensor :=
  let self := call (set_pull_up_down_OFF (_gpio self)) self in
  let self := call (set_watchdog (_gpio self) 0) self in
  register_callbacks cb self.

(** [DHT11.read]. *)
Definition read (self : sensor) : sensor :=
  let self := call (write_LOW (_gpio self)) self in
  let self := call (sleep 17) self in
  let self := call (set_mode_INPUT (_gpio self)) self in
  let self := call (set_watchdog (_gpio self) 200) self in
  call (sleep 200) self.

(** [DHT11.close], and [__aexit__] which awaits it. *)
Definition close (self : sensor) : sensor :=
  let self := call (set_watchdog (_gpio self) 0) self in
  match _either_edge_cb self with
  | Some cb =>
      let self := call (cancel cb) self in
      set_either_edge_cb None self
  | None => self
  end.

(** The session methods a caller can invoke, and a sequence of them. *)
Inductive method : Type :=
| Connect (cb : nat)
| Read
| Close.

Definition invoke (m : method) (self : sensor) : sensor :=
  match m with
  | Connect cb => connect cb self
  | Read => read self
  | Close => close self
  end.

Definition invoke_all (ms : list method) (self : sensor) : sensor :=
  fold_left (fun self m => invoke m self) ms self.

(** The handles registered and the handles cancelled in a log. *)
Definition registered (l : list pi_call) : list nat :=
  flat_map (fun c => match c with
                     | add_callback_EITHER_EDGE _ cb => [cb]
                     | _ => []
                     end) l.

Definition cancelled (l : list pi_call) : list nat :=
  flat_map (fun c => match c with cancel cb => [cb] | _ => [] end) l.

(** The loop of [main(max_count)] over the results the iteration yields,
    from [count] valid results so far: the results it prints. *)
Fixpoint main_loop (max_count count : Z) (results : list DHT11Result)
  : list DHT11Result :=
  match results with
  | [] => []
  | result :: rest =>
      let printed := if is_valid result then [result] else [] in
      let count := if is_valid result then count + 1 else count in
      if count >=? max_count then printed
      else printed ++ main_loop max_count count rest
  end.

Definition main (max_count : Z) (results : list DHT11Result)
  : list DHT11Result :=
  main_loop max_count 0 results.

(** The handles the [add_callback] calls of a sequence of methods return. *)
Definition connect_handles (ms : list method) : list nat :=
  flat_map (fun m => match m with Connect cb => [cb] | _ => [] end) ms.

(** No handle is cancelled twice, every cancelled handle was registered,
    and the handle the sensor holds has not been cancelled. *)
Definition subscriptions_sound (self : sensor) : Prop :=
  NoDup (cancelled (log self)) /\
  incl (cancelled (log self)) (registered (log self)) /\
  (forall cb, _either_edge_cb self = Some cb ->
              In cb (registered (log self)) /\
              ~ In cb (cancelled (log self))).

End Session.

(** * Properties *)

(** Case analysis on the integer comparisons of the code. *)
Ltac zcases :=
  rewrite ?Z.gtb_ltb, ?Z.geb_leb in *;
  repeat match goal with
  | |- context [?a <? ?b] => destruct (Z.ltb_spec a b)
  | |- context [?a <=? ?b] => destruct (Z.leb_spec a b)
  | |- context [?a =? ?b] => destruct (Z.eqb_spec a b)
  end.

(** ** Tick arithmetic *)

Section TickArithmetic.
Import Utils.

Lemma shiftl_1_32 : Z.shiftl 1 32 = 4294967296.
Proof. reflexivity. Qed.

Lemma tick_diff_mod t1 t2 :
  0 <= t1 < 2 ^ 32 -> 0 <= t2 < 2 ^ 32 ->
  tick_diff t1 t2 = (t2 - t1) mod 2 ^ 32.
Proof.
  intros H1 H2. unfold tick_diff. rewrite shiftl_1_32.
  change (2 ^ 32) with 4294967296 in *.
  zcases.
  - apply Z.mod_unique with (q := -1); lia.
  - symmetry. apply Z.mod_small. lia.
Qed.

Lemma tick_diff_range t1 t2 :
  0 <= t1 < 2 ^ 32 -> 0 <= t2 < 2 ^ 32 ->
  0 <= tick_diff t1 t2 < 2 ^ 32.
Proof.
  intros H1 H2. rewrite tick_diff_mod by assumption.
  apply Z.mod_pos_bound. reflexivity.
Qed.

Lemma tick_diff_same t : tick_diff t t = 0.
Proof. unfold tick_diff. rewrite Z.sub_diag. reflexivity. Qed.

Example tick_diff_doctest : tick_diff 4294967272 12 = 36.
Proof. reflexivity. Qed.

(** Without wraparound the decorator computes the same elapsed time as
    [tick_diff]. *)
Lemma delay_nonwrapping last_ tick :
  last_ <= tick -> delay last_ tick = tick - last_.
Proof. intros H. unfold delay. zcases; lia. Qed.

Lemma delay_nonwrapping_tick_diff last_ tick :
  last_ <= tick -> delay last_ tick = tick_diff last_ tick.
Proof.
  intros H. rewrite delay_nonwrapping by assumption.
  unfold tick_diff. zcases; lia.
Qed.

(** With wraparound it is one microsecond short: [max_tick] is
    [2^32 - 1], where [tick_diff] adds [1 << 32]. *)
Lemma delay_wraparound last_ tick :
  tick < last_ -> delay last_ tick = tick_diff last_ tick - 1.
Proof.
  intros H. unfold delay, tick_diff, max_tick. rewrite shiftl_1_32.
  zcases; lia.
Qed.

End TickArithmetic.

(** ** The debounce decorator *)

Section Debounce.
Import Utils.

(** [__call__] once the tick has been read from the arguments. *)
Lemma call_with_tick threshold self args tick :
  nth_error args (tick_index self) = Some (VInt tick) ->
  __call__ threshold self args =
  if delay (last self) tick >? threshold * 1000
  then Ok {| self' := set_last tick self; invoked := Some (_fn self, args) |}
  else Ok {| self' := self; invoked := None |}.
Proof.
  intros Hargs. unfold __call__, arg. rewrite Hargs. reflexivity.
Qed.

Lemma call_accepted threshold self args tick :
  nth_error args (tick_index self) = Some (VInt tick) ->
  delay (last self) tick > threshold * 1000 ->
  __call__ threshold self args =
  Ok {| self' := set_last tick self; invoked := Some (_fn self, args) |}.
Proof.
  intros Hargs Hd. rewrite (call_with_tick _ _ _ _ Hargs).
  zcases; [reflexivity | lia].
Qed.

Lemma call_suppressed threshold self args tick :
  nth_error args (tick_index self) = Some (VInt tick) ->
  delay (last self) tick <= threshold * 1000 ->
  __call__ threshold self args = Ok {| self' := self; invoked := None |}.
Proof.
  intros Hargs Hd. rewrite (call_with_tick _ _ _ _ Hargs).
  zcases; [lia | reflexivity].
Qed.

(** C8, at its failing input.  The stored tick 4294967272 and the incoming
    tick 12 are 36 microseconds apart ([tick_diff]'s own example), but the
    decorator computes 35.  With the default threshold of 100 ms, a
    wrapped-around call 100001 microseconds after the stored tick
    4294867296 is filtered out, although the elapsed time exceeds the
    threshold. *)
Theorem debounce_delay_wraparound_short :
  delay 4294967272 12 = 35 /\
  tick_diff 4294967272 12 = 36 /\
  tick_diff 4294867296 1 = 100001 /\
  100001 > 100 * 1000 /\
  let self := {| _fn := 7; last := 4294867296; is_method := false |} in
  __call__ 100 self [VInt 4; VInt 0; VInt 1] =
    Ok {| self' := self; invoked := None |}.
Proof.
  repeat split; try reflexivity.
Qed.

(** C9.  For a call that does not wrap around (the stored tick is at most
    the incoming one), the elapsed time is [tick - last]; the wrapped
    callback is invoked and [last] becomes the incoming tick exactly when it
    exceeds the threshold in microseconds, and otherwise nothing changes.
    In particular, once a call at [tick] was accepted, a call [T - 1]
    microseconds later is filtered out and a call [T + 1] microseconds
    later goes through. *)
Theorem debounce_nonwrapping_accepts_iff threshold self args tick :
  nth_error args (tick_index self) = Some (VInt tick) ->
  last self <= tick ->
  let T := threshold * 1000 in
  exists o,
    __call__ threshold self args = Ok o /\
    delay (last self) tick = tick - last self /\
    (invoked o <> None <-> delay (last self) tick > T) /\
    (delay (last self) tick > T ->
       invoked o = Some (_fn self, args) /\ self' o = set_last tick self) /\
    (delay (last self) tick <= T -> invoked o = None /\ self' o = self) /\
    (forall args1 args2,
       invoked o <> None ->
       tick <= tick + T - 1 ->
       nth_error args1 (tick_index self) = Some (VInt (tick + T - 1)) ->
       nth_error args2 (tick_index self) = Some (VInt (tick + T + 1)) ->
       __call__ threshold (self' o) args1 =
         Ok {| self' := self' o; invoked := None |} /\
       __call__ threshold (self' o) args2 =
         Ok {| self' := set_last (tick + T + 1) (self' o);
               invoked := Some (_fn self, args2) |}).
Proof.
  intros Hargs Hle T.
  rewrite (call_with_tick _ _ _ _ Hargs). fold T.
  pose proof (delay_nonwrapping _ _ Hle) as Hd.
  destruct (Z.ltb_spec T (delay (last self) tick)) as [Hgt | Hngt];
    rewrite Z.gtb_ltb;
    [ apply Z.ltb_lt in Hgt as Hb | apply Z.ltb_ge in Hngt as Hb ];
    rewrite Hb; eexists; (split; [reflexivity |]); cbn [invoked self'].
  - split; [assumption |]. split; [split; [lia | discriminate] |].
    split; [auto |]. split; [lia |].
    intros args1 args2 _ Hnw H1 H2. split.
    + apply call_suppressed with (tick := tick + T - 1); [exact H1 |].
      cbn [last set_last]. rewrite delay_nonwrapping by lia. fold T. lia.
    + rewrite (call_accepted threshold _ args2 (tick + T + 1)).
      * reflexivity.
      * exact H2.
      * cbn [last set_last]. rewrite delay_nonwrapping by lia. fold T. lia.
  - split; [assumption |]. split; [split; [congruence | lia] |].
    split; [lia |]. split; [auto |].
    intros args1 args2 Hinv. congruence.
Qed.

Lemma debounce_nonwrapping_accepts_iff_witness :
  exists o,
    __call__ 100 (__init__ 7) [VInt 4; VInt 0; VInt 200000] = Ok o /\
    invoked o = Some (7%nat, [VInt 4; VInt 0; VInt 200000]) /\
    __call__ 100 (self' o) [VInt 4; VInt 1; VInt 299999] =
      Ok {| self' := self' o; invoked := None |} /\
    __call__ 100 (self' o) [VInt 4; VInt 1; VInt 300001] =
      Ok {| self' := set_last 300001 (self' o);
            invoked := Some (7%nat, [VInt 4; VInt 1; VInt 300001]) |}.
Proof.
  destruct (debounce_nonwrapping_accepts_iff 100 (__init__ 7)
              [VInt 4; VInt 0; VInt 200000] 200000)
    as (o & Hcall & _ & _ & Hacc & _ & Hnext).
  - reflexivity.
  - cbn. lia.
  - exists o. split; [exact Hcall |].
    destruct Hacc as [Hinv _]; [vm_compute; reflexivity |].
    split; [exact Hinv |].
    apply (Hnext [VInt 4; VInt 1; VInt 299999] [VInt 4; VInt 1; VInt 300001]).
    + rewrite Hinv. discriminate.
    + lia.
    + reflexivity.
    + reflexivity.
Defined.

(** C10.  A freshly constructed filter stores 0 as its last accepted tick,
    so its first call is filtered out whenever the tick is at most the
    threshold in microseconds; [m] tells whether the filter decorates a
    method (and [__get__] has set [is_method]) or a function. *)
Theorem fresh_filter_suppresses_early_first_call threshold pigpio_cb m args tick :
  let self := if m : bool then set_is_method (__init__ pigpio_cb)
              else __init__ pigpio_cb in
  nth_error args (tick_index self) = Some (VInt tick) ->
  0 <= tick <= threshold * 1000 ->
  last self = 0 /\
  __call__ threshold self args = Ok {| self' := self; invoked := None |}.
Proof.
  intros self Hargs Htick.
  assert (Hlast : last self = 0) by (subst self; destruct m; reflexivity).
  split; [exact Hlast |].
  apply (call_suppressed _ _ _ _ Hargs).
  rewrite Hlast, delay_nonwrapping; lia.
Qed.

Lemma fresh_filter_suppresses_early_first_call_witness :
  last (__init__ 7) = 0 /\
  __call__ 100 (__init__ 7) [VInt 4; VInt 0; VInt 100000] =
    Ok {| self' := __init__ 7; invoked := None |}.
Proof.
  apply (fresh_filter_suppresses_early_first_call 100 7 false
           [VInt 4; VInt 0; VInt 100000] 100000).
  - reflexivity.
  - lia.
Defined.

End Debounce.

(** ** The decorator on a method of a class with several instances *)

Section SharedDecorator.
Import Utils.

Lemma get_func self instance w : func (__get__ self instance w).2 = self.
Proof. reflexivity. Qed.

Lemma get_bound self instance w :
  bound (__get__ self instance w).2 = [VRef instance].
Proof. reflexivity. Qed.

Lemma get_lookup self instance w :
  objects (__get__ self instance w).1 !! self =
  set_is_method <$> objects w !! self.
Proof. cbn. apply lookup_alter_eq. Qed.

Lemma get_calls self instance w : calls (__get__ self instance w).1 = calls w.
Proof. reflexivity. Qed.

(** The claim C4 fails: instances 1 and 2 read [cb]; a call through
    instance 1 at tick 200000 goes through, and the stored tick that decides
    the calls through instance 2 moves from 0 to 200000, so that a first call
    through instance 2 at tick 250000 is filtered out. *)
Lemma decorated_method_instances_interfere :
  let (w1, pa) := __get__ 0 1 class_world in
  let (w2, pb) := __get__ 0 2 w1 in
  exists w3,
    call_partial 100 pa [VInt 4; VInt 0; VInt 200000] w2 = Some (Ok w3) /\
    calls w3 = [(7%nat, [VRef 1; VInt 4; VInt 0; VInt 200000])] /\
    last_of pb w2 = Some 0 /\
    last_of pb w3 = Some 200000 /\
    last_of pb w3 <> last_of pb w2 /\
    exists w4,
      call_partial 100 pb [VInt 4; VInt 0; VInt 250000] w3 = Some (Ok w4) /\
      calls w4 = calls w3.
Proof.
  cbn -[call_partial last_of].
  eexists. split; [vm_compute; reflexivity |].
  split; [reflexivity |].
  split; [vm_compute; reflexivity |].
  split; [vm_compute; reflexivity |].
  split; [vm_compute; discriminate |].
  eexists. split; [vm_compute; reflexivity |]. reflexivity.
Qed.

(** C4, amended.  All instances share the one [_decorated] object of the
    class: the callables obtained through two instances refer to the same
    object, and a call that goes through by one of them sets the stored tick
    that decides the calls of the other. *)
Theorem decorated_method_state_is_shared
    threshold self (a b : nat) (w : world) d args tick :
  objects w !! self = Some d ->
  nth_error args 2 = Some (VInt tick) ->
  delay (last d) tick > threshold * 1000 ->
  let w1 := (__get__ self a w).1 in
  let pa := (__get__ self a w).2 in
  let w2 := (__get__ self b w1).1 in
  let pb := (__get__ self b w1).2 in
  func pa = func pb /\
  last_of pb w2 = Some (last d) /\
  exists w3,
    call_partial threshold pa args w2 = Some (Ok w3) /\
    calls w3 = calls w ++ [(_fn d, VRef a :: args)] /\
    last_of pa w3 = Some tick /\
    last_of pb w3 = Some tick.
Proof.
  intros Hd Hargs Hdelay w1 pa w2 pb.
  assert (Hw2 : objects w2 !! self = Some (set_is_method (set_is_method d))).
  { subst w2 w1. rewrite !get_lookup, Hd. reflexivity. }
  split; [reflexivity |].
  split; [unfold last_of; subst pb; rewrite get_func, Hw2; reflexivity |].
  unfold call_partial. subst pa pb. rewrite !get_func, get_bound, Hw2.
  cbn [mbind option_bind].
  rewrite (call_accepted threshold _ _ tick); [| exact Hargs | exact Hdelay].
  eexists. split; [reflexivity |].
  cbn [mbind result_bind calls objects self' invoked option_list].
  split; [subst w2 w1; rewrite !get_calls; reflexivity |].
  unfold last_of; cbn [objects]. rewrite !get_func, lookup_insert_eq.
  split; reflexivity.
Qed.

Lemma decorated_method_state_is_shared_witness :
  let w1 := (__get__ 0 1 class_world).1 in
  let pa := (__get__ 0 1 class_world).2 in
  let w2 := (__get__ 0 2 w1).1 in
  let pb := (__get__ 0 2 w1).2 in
  func pa = func pb /\
  last_of pb w2 = Some 0 /\
  exists w3,
    call_partial 100 pa [VInt 4; VInt 0; VInt 200000] w2 = Some (Ok w3) /\
    calls w3 = [(7%nat, [VRef 1; VInt 4; VInt 0; VInt 200000])] /\
    last_of pa w3 = Some 200000 /\
    last_of pb w3 = Some 200000.
Proof.
  apply (decorated_method_state_is_shared 100 0%nat 1%nat 2%nat class_world
           (__init__ 7) [VInt 4; VInt 0; VInt 200000] 200000).
  - reflexivity.
  - reflexivity.
  - vm_compute. reflexivity.
Defined.

End SharedDecorator.

(** ** The DHT11 decoder *)

Section Decoder.
Import DHT11.

Example frame_45_25_70 :
  deliver 4 (frame_events 300000 45 25 70) init =
  Ok {| temperature := 25; humidity := 45; _high_tick := 304200; _bit := 40;
        _error := ERR_NO_ERROR; checksum := Some 70; tasks := 1 |}.
Proof. vm_compute. reflexivity. Qed.

Example frame_45_25_71 :
  deliver 4 (frame_events 300000 45 25 71) init =
  Ok {| temperature := 25; humidity := 45; _high_tick := 304200; _bit := 39;
        _error := ERR_CRC; checksum := Some 71; tasks := 1 |}.
Proof. vm_compute. reflexivity. Qed.

Lemma land_255_range x : 0 <= Z.land x 255 <= 255.
Proof.
  change 255 with (Z.ones 8) at 1 2. rewrite Z.land_ones by lia.
  pose proof (Z.mod_pos_bound x (2 ^ 8)). lia.
Qed.

Lemma shiftl_1 c : Z.shiftl c 1 = 2 * c.
Proof. rewrite Z.shiftl_mul_pow2 by lia. lia. Qed.

Lemma bit_value_range diff : 0 <= bit_value diff <= 1.
Proof. unfold bit_value. zcases; lia. Qed.

(** A long pulse touches the checksum only. *)
Lemma force_bad_checksum_frame diff s :
  _bit (force_bad_checksum diff s) = _bit s /\
  humidity (force_bad_checksum diff s) = humidity s /\
  temperature (force_bad_checksum diff s) = temperature s /\
  _error (force_bad_checksum diff s) = _error s /\
  _high_tick (force_bad_checksum diff s) = _high_tick s /\
  tasks (force_bad_checksum diff s) = tasks s.
Proof. unfold force_bad_checksum. destruct (diff >=? 200); auto 10. Qed.

Lemma force_bad_checksum_long diff s :
  diff >= 200 -> checksum (force_bad_checksum diff s) = Some 256.
Proof. intros H. unfold force_bad_checksum. zcases; [reflexivity | lia]. Qed.

Lemma force_bad_checksum_short diff s :
  diff < 200 -> force_bad_checksum diff s = s.
Proof. intros H. unfold force_bad_checksum. zcases; [lia | reflexivity]. Qed.

(** *** Rising edges, position by position *)

(** Once the frame is complete the position is clamped (lines 91-92). *)
Lemma rise_complete s tick diff :
  _bit s >= 40 ->
  _edge_RISE s tick diff = Ok (set_bit 40 (force_bad_checksum diff s)).
Proof.
  intros Hb. unfold _edge_RISE.
  destruct (force_bad_checksum_frame diff s) as (-> & _).
  destruct (Z.geb_spec (_bit s) 40); [reflexivity | lia].
Qed.

(** In the checksum byte (lines 94-103 and 116). *)
Lemma rise_checksum s tick diff c :
  32 <= _bit s <= 39 ->
  checksum (force_bad_checksum diff s) = Some c ->
  let c' := Z.shiftl c 1 + bit_value diff in
  let s0 := set_checksum c' (force_bad_checksum diff s) in
  _edge_RISE s tick diff =
  if _bit s =? 39 then
    if Z.land (humidity s + temperature s) 255 =? c'
    then Ok (set_bit 40 (create_task s0))
    else Ok (set_error ERR_CRC (create_task s0))
  else Ok (set_bit (_bit s + 1) s0).
Proof.
  intros Hb Hc c' s0. unfold _edge_RISE, get_checksum. rewrite Hc.
  cbn [mbind result_bind]. fold c' s0.
  destruct (force_bad_checksum_frame diff s) as (Eb & Eh & Et & _).
  cbn [_bit humidity temperature set_checksum create_task s0].
  rewrite Eb, Eh, Et.
  destruct (Z.geb_spec (_bit s) 40); [lia |].
  destruct (Z.geb_spec (_bit s) 32); [| lia].
  destruct (Z.eqb_spec (_bit s) 39) as [E | _]; [| reflexivity].
  rewrite E. destruct (Z.land _ 255 =? c'); reflexivity.
Qed.

(** Before the checksum byte no rising edge reads the checksum, and the
    position moves by one (lines 105-116). *)
Lemma rise_data s tick diff :
  _bit s < 32 ->
  exists s',
    _edge_RISE s tick diff = Ok s' /\
    _bit s' = _bit s + 1 /\
    _high_tick s' = _high_tick s /\
    tasks s' = tasks s /\
    checksum s' = checksum (force_bad_checksum diff s) /\
    (_error s' = _error s \/ _error s' = ERR_NO_ERROR).
Proof.
  intros Hb. unfold _edge_RISE.
  destruct (force_bad_checksum_frame diff s) as (Eb & Eh & Et & Ee & Ek & Ea).
  rewrite Eb.
  destruct (Z.geb_spec (_bit s) 40); [lia |].
  destruct (Z.geb_spec (_bit s) 32); [lia |].
  destruct (_ && _); [| destruct (_ && _)];
    eexists; (split; [reflexivity |]); cbn; rewrite ?Eb, ?Ek, ?Ea, ?Ee; auto 10.
Qed.

(** A checksum of 256 or more can no longer match at the 40th bit: the
    handler records the error and returns before line 116. *)
Lemma rise_checksum_out_of_range s tick diff c :
  32 <= _bit s <= 39 ->
  checksum (force_bad_checksum diff s) = Some c ->
  256 <= c ->
  exists s',
    _edge_RISE s tick diff = Ok s' /\
    checksum s' = Some (2 * c + bit_value diff) /\
    humidity s' = humidity s /\
    temperature s' = temperature s /\
    (_bit s < 39 -> _bit s' = _bit s + 1) /\
    (_bit s = 39 -> _bit s' = 39 /\ _error s' = ERR_CRC).
Proof.
  intros Hb Hc Hlarge.
  rewrite (rise_checksum s tick diff c Hb Hc). rewrite shiftl_1.
  destruct (force_bad_checksum_frame diff s) as (Eb & Eh & Et & _).
  pose proof (bit_value_range diff) as Hv.
  pose proof (land_255_range (humidity s + temperature s)) as Hl.
  destruct (Z.eqb_spec (_bit s) 39) as [E | NE].
  - destruct (Z.eqb_spec (Z.land (humidity s + temperature s) 255)
                (2 * c + bit_value diff)) as [E' | _]; [lia |].
    eexists. split; [reflexivity |]. cbn. rewrite Eb, Eh, Et.
    repeat split; auto; lia.
  - eexists. split; [reflexivity |]. cbn. rewrite Eh, Et.
    repeat split; auto; lia.
Qed.

(** *** Falling edges and timeouts *)

Lemma fall_within_frame s tick diff :
  diff <= 250000 -> _edge_FALL s tick diff = Ok (set_high_tick tick s).
Proof.
  intros H. unfold _edge_FALL.
  destruct (Z.leb_spec diff 250000); [reflexivity | lia].
Qed.

Lemma fall_starts_frame s tick diff :
  diff > 250000 ->
  _edge_FALL s tick diff =
  Ok {| temperature := 0; humidity := 0; _high_tick := tick; _bit := -2;
        _error := _error s; checksum := Some 0; tasks := tasks s |}.
Proof.
  intros H. unfold _edge_FALL.
  destruct (Z.leb_spec diff 250000); [lia | reflexivity].
Qed.

(** *** What every reachable state satisfies *)

Lemma force_bad_checksum_is_Some diff s :
  is_Some (checksum s) -> is_Some (checksum (force_bad_checksum diff s)).
Proof. unfold force_bad_checksum. destruct (diff >=? 200); cbn; eauto. Qed.

Lemma rise_well_formed s tick diff :
  well_formed s ->
  exists s', _edge_RISE s tick diff = Ok s' /\ well_formed s'.
Proof.
  intros (Hb & Hc & He).
  destruct (force_bad_checksum_frame diff s) as (Eb & Eh & Et & Ee & _).
  destruct (Z.lt_ge_cases (_bit s) 32) as [Hlo | Hhi].
  - destruct (rise_data s tick diff Hlo) as (s' & -> & Eb' & _ & _ & Ec' & Ee').
    exists s'. split; [reflexivity |]. split; [lia |]. split.
    + intros _. rewrite Ec'. apply force_bad_checksum_is_Some, Hc. lia.
    + destruct Ee' as [-> | ->]; auto.
  - destruct (Z.lt_ge_cases (_bit s) 40) as [Hin | Hdone].
    + destruct (force_bad_checksum_is_Some diff s (Hc Hin)) as [c Ec].
      rewrite (rise_checksum s tick diff c); [| lia | exact Ec].
      destruct (Z.eqb_spec (_bit s) 39) as [E39 | N39];
        [destruct (Z.land _ 255 =? _) |];
        eexists; (split; [reflexivity |]); unfold well_formed; cbn;
        rewrite ?Eb, ?Ee; (split; [lia | split; [eauto | auto]]).
    + rewrite rise_complete by lia.
      eexists. split; [reflexivity |]. unfold well_formed. cbn. rewrite Ee.
      split; [lia | split; [lia | exact He]].
Qed.

Lemma fall_well_formed s tick diff :
  well_formed s ->
  exists s', _edge_FALL s tick diff = Ok s' /\ well_formed s'.
Proof.
  intros (Hb & Hc & He).
  destruct (Z.le_gt_cases diff 250000) as [Hle | Hgt].
  - rewrite fall_within_frame by exact Hle.
    eexists. split; [reflexivity |]. repeat split; cbn; auto; lia.
  - rewrite fall_starts_frame by lia.
    eexists. split; [reflexivity |]. repeat split; cbn; eauto; lia.
Qed.

(** On a well-formed state the callback returns for each of the three
    levels, and the state stays well formed. *)
Lemma callback_well_formed s gpio l tick :
  well_formed s ->
  (forall n, l <> other_level n) ->
  exists s', either_edge_callback s gpio l tick = Ok s' /\ well_formed s'.
Proof.
  intros Hwf Hl. unfold either_edge_callback.
  destruct l; cbn [level_handlers mbind result_bind].
  - apply fall_well_formed, Hwf.
  - apply rise_well_formed, Hwf.
  - eexists. split; [reflexivity |]. exact Hwf.
  - destruct (Hl n). reflexivity.
Qed.

Lemma callback_preserves_well_formed s gpio l tick s' :
  well_formed s ->
  either_edge_callback s gpio l tick = Ok s' ->
  well_formed s'.
Proof.
  intros Hwf Hcall.
  destruct (callback_well_formed s gpio l tick Hwf) as (s'' & E & Hwf').
  - intros n ->. discriminate.
  - rewrite E in Hcall. injection Hcall as <-. exact Hwf'.
Qed.

Lemma init_well_formed : well_formed init.
Proof.
  unfold well_formed. cbn. split; [lia |]. split; [lia | auto].
Qed.

Lemma reachable_well_formed s : reachable s -> well_formed s.
Proof.
  induction 1 as [| s gpio l tick s' _ IH Hcall].
  - exact init_well_formed.
  - exact (callback_preserves_well_formed _ _ _ _ _ IH Hcall).
Qed.

Lemma deliver_reachable gpio evs s s' :
  reachable s -> deliver gpio evs s = Ok s' -> reachable s'.
Proof.
  revert s. induction evs as [| [l tick] evs IH]; intros s Hr Hd; cbn in Hd.
  - injection Hd as <-. exact Hr.
  - destruct (either_edge_callback s gpio l tick) as [s1 |] eqn:E;
      cbn in Hd; [| discriminate].
    apply (IH s1); [| exact Hd]. exact (reachable_step _ _ _ _ _ Hr E).
Qed.

(** *** Finalizing a read *)

(** The claim C1 fails: a frame starts, five pulses arrive, the watchdog
    fires, and the read is finalized at position 3 with no checksum error
    recorded: the frame reports [ERR_NO_ERROR], not [ERR_MISSING_DATA]. *)
Lemma incomplete_read_reports_no_error :
  exists s r,
    __anext__ 4
      ((FALLING_EDGE, 300000) ::
       pulses 300000 [false; false; false; false; true] ++
       [(EITHER_EDGE, 0)]) init = Ok (s, r) /\
    _bit s = 3 /\
    _bit s < 40 /\
    _error s <> ERR_CRC /\
    error_code r = ERR_NO_ERROR /\
    error_code r <> ERR_MISSING_DATA.
Proof.
  do 2 eexists. split; [vm_compute; reflexivity |].
  cbn. repeat split; try lia; discriminate.
Qed.

(** C1, amended.  A finalized read returns the attributes of the decoder
    as they are; no handler ever records [ERR_MISSING_DATA], so a read
    finalized before the 40th bit with no checksum error recorded reports
    [ERR_NO_ERROR]. *)
Theorem read_reports_recorded_error gpio evs s0 s r :
  reachable s0 ->
  __anext__ gpio evs s0 = Ok (s, r) ->
  r = snapshot s /\
  error_code r = _error s /\
  error_code r <> ERR_MISSING_DATA /\
  (_bit s < 40 -> _error s <> ERR_CRC -> error_code r = ERR_NO_ERROR).
Proof.
  intros Hr Hnext. unfold __anext__ in Hnext.
  destruct (deliver gpio evs s0) as [s1 |] eqn:Hd; cbn in Hnext;
    [| discriminate].
  injection Hnext as <- <-.
  pose proof (reachable_well_formed _ (deliver_reachable _ _ _ _ Hr Hd))
    as (_ & _ & He).
  split; [reflexivity |]. split; [reflexivity |]. cbn [snapshot error_code].
  split.
  - destruct He as [-> | ->]; discriminate.
  - intros _ Hcrc. destruct He as [-> | E]; [reflexivity | contradiction].
Qed.

Lemma read_reports_recorded_error_witness :
  exists s r,
    __anext__ 4 [(FALLING_EDGE, 300000); (RISING_EDGE, 300026)] init =
      Ok (s, r) /\
    r = snapshot s /\
    error_code r = _error s /\
    error_code r <> ERR_MISSING_DATA /\
    (_bit s < 40 -> _error s <> ERR_CRC -> error_code r = ERR_NO_ERROR).
Proof.
  do 2 eexists. split; [vm_compute; reflexivity |].
  apply (read_reports_recorded_error 4
           [(FALLING_EDGE, 300000); (RISING_EDGE, 300026)] init).
  - exact reachable_init.
  - vm_compute. reflexivity.
Defined.

(** *** A complete frame *)

(** C2.  The frame that starts with a falling edge at tick 300000 and
    carries humidity 45, temperature 25 and checksum 70: its first falling
    edge starts a frame, every later falling edge stays within it, every
    rising edge is shorter than 200 microseconds, the rising edges carry
    the bits of the three bytes at positions 0-7, 16-23 and 32-39, and the
    read finalized after it reports no error, humidity 45 and temperature
    25. *)
Theorem frame_45_25_70_decodes :
  exists evs,
    evs = frame_events 300000 45 25 70 /\
    hd_error (observed_diffs 4 evs init) = Some (FALLING_EDGE, 300000) /\
    forallb (fun e : level * Z =>
               match e.1 with
               | RISING_EDGE => e.2 <? 200
               | FALLING_EDGE => e.2 <=? 250000
               | _ => false
               end) (tl (observed_diffs 4 evs init)) = true /\
    map (fun e : level * Z => bit_value e.2)
        (List.filter (fun e : level * Z => is_rising e.1)
                     (observed_diffs 4 evs init)) =
      [0; 0] ++ [0; 0; 1; 0; 1; 1; 0; 1] ++ [0; 0; 0; 0; 0; 0; 0; 0] ++
      [0; 0; 0; 1; 1; 0; 0; 1] ++ [0; 0; 0; 0; 0; 0; 0; 0] ++
      [0; 1; 0; 0; 0; 1; 1; 0] /\
    exists s,
      __anext__ 4 evs init =
        Ok (s, {| error_code := ERR_NO_ERROR;
                  result_temperature := 25;
                  result_humidity := 45 |}) /\
      _bit s = 40.
Proof.
  eexists. split; [reflexivity |].
  split; [vm_compute; reflexivity |].
  split; [vm_compute; reflexivity |].
  split; [vm_compute; reflexivity |].
  eexists. split; [vm_compute; reflexivity | reflexivity].
Qed.

(** *** Falling edges that start a frame *)




(** *** Rising edges and the position *)

(** The claim C5 fails at the 40th bit of a frame whose checksum does not
    match: the frame 45, 25 with checksum byte 71 reaches position 39, and
    the rising edge that carries the last bit leaves the position at 39. *)
Lemma rise_at_39_with_bad_checksum_stays :
  exists s s',
    deliver 4 ((FALLING_EDGE, 300000) ::
               pulses 300000 (removelast (frame_bits 45 25 71))) init = Ok s /\
    -2 <= _bit s <= 39 /\
    either_edge_callback s 4 RISING_EDGE 304170 = Ok s' /\
    _bit s = 39 /\
    _bit s' = 39 /\
    _bit s' <> _bit s + 1.
Proof.
  do 2 eexists. split; [vm_compute; reflexivity |].
  cbn [_bit]. split; [lia |]. split; [vm_compute; reflexivity |].
  cbn [_bit]. repeat split; lia.
Qed.

(** C5, amended.  In a reachable state within a frame, a rising edge moves
    the position by exactly one, except at the 40th bit when the checksum
    comparison fails: the handler then records [ERR_CRC] and returns, and
    the position stays 39. *)
Theorem rise_in_frame_position s tick diff :
  reachable s ->
  -2 <= _bit s <= 39 ->
  exists s',
    _edge_RISE s tick diff = Ok s' /\
    (_bit s < 39 -> _bit s' = _bit s + 1) /\
    (_bit s = 39 ->
     checksum s' = Some (Z.land (humidity s + temperature s) 255) ->
     _bit s' = 40) /\
    (_bit s = 39 ->
     checksum s' <> Some (Z.land (humidity s + temperature s) 255) ->
     _bit s' = 39 /\ _error s' = ERR_CRC).
Proof.
  intros Hr Hb. destruct (reachable_well_formed s Hr) as (_ & Hc & _).
  destruct (Z.lt_ge_cases (_bit s) 32) as [Hlo | Hhi].
  - destruct (rise_data s tick diff Hlo) as (s' & E & Eb' & _).
    exists s'. split; [exact E |]. repeat split; lia.
  - destruct (force_bad_checksum_is_Some diff s) as [c Ec]; [apply Hc; lia |].
    rewrite (rise_checksum s tick diff c); [| lia | exact Ec].
    destruct (Z.eqb_spec (_bit s) 39) as [E39 | N39].
    + destruct (Z.eqb_spec (Z.land (humidity s + temperature s) 255)
                  (Z.shiftl c 1 + bit_value diff)) as [Em | Nm];
        eexists; (split; [reflexivity |]); cbn.
      * split; [lia |]. split; [reflexivity |].
        intros _ Hne. congruence.
      * destruct (force_bad_checksum_frame diff s) as (-> & _).
        split; [lia |]. split; [| auto].
        intros _ Heq. congruence.
    + eexists. split; [reflexivity |]. cbn.
      split; [reflexivity |]. split; intros; lia.
Qed.

Lemma rise_in_frame_position_witness :
  exists s,
    deliver 4 [(FALLING_EDGE, 300000)] init = Ok s /\
    exists s',
      _edge_RISE s 300026 26 = Ok s' /\
      (_bit s < 39 -> _bit s' = _bit s + 1).
Proof.
  eexists. split; [vm_compute; reflexivity |].
  destruct (rise_in_frame_position
              {| temperature := 0; humidity := 0; _high_tick := 300000;
                 _bit := -2; _error := ERR_NO_ERROR; checksum := Some 0;
                 tasks := 0 |} 300026 26) as (s3 & E & H & _).
  - apply (deliver_reachable 4 [(FALLING_EDGE, 300000)] init);
      [exact reachable_init | vm_compute; reflexivity].
  - cbn. lia.
  - exists s3. split; [exact E | exact H].
Defined.

(** *** Rising edges after completion *)




(** *** A long pulse in the checksum byte *)

Lemma force_bad_checksum_spoiled diff s c :
  checksum s = Some c -> 512 <= c ->
  exists c0, checksum (force_bad_checksum diff s) = Some c0 /\ 256 <= c0.
Proof.
  intros Hc Hlarge. unfold force_bad_checksum.
  destruct (diff >=? 200); cbn; eauto with lia.
Qed.

(** A long pulse in the checksum byte spoils the checksum. *)
Lemma long_pulse_spoils s tick diff :
  32 <= _bit s <= 39 ->
  diff >= 200 ->
  exists s',
    _edge_RISE s tick diff = Ok s' /\
    checksum_spoiled s' /\
    (_bit s = 39 -> _error s' = ERR_CRC).
Proof.
  intros Hb Hd.
  destruct (rise_checksum_out_of_range s tick diff 256 Hb)
    as (s' & E & Ec & _ & _ & Hlt & H39);
    [apply force_bad_checksum_long, Hd | lia |].
  pose proof (bit_value_range diff) as Hv.
  exists s'. split; [exact E |]. split; [split |].
  - destruct (Z.eq_dec (_bit s) 39) as [E39 | N39].
    + destruct (H39 E39) as [-> _]. lia.
    + rewrite Hlt by lia. lia.
  - intros _. eexists. split; [exact Ec | lia].
  - intros E39. apply H39, E39.
Qed.

(** A spoiled checksum stays spoiled under rising edges, and at the 40th
    bit the comparison fails. *)
Lemma spoiled_rise s tick diff :
  checksum_spoiled s ->
  exists s',
    _edge_RISE s tick diff = Ok s' /\
    checksum_spoiled s' /\
    (_bit s = 39 ->
     _error s' = ERR_CRC /\ _bit s' = 39 /\
     checksum s' <> Some (Z.land (humidity s + temperature s) 255)).
Proof.
  intros [Hlo Hc].
  destruct (Z.le_gt_cases (_bit s) 39) as [Hin | Hdone].
  - destruct (Hc Hin) as (c & Ec & Hlarge).
    destruct (force_bad_checksum_spoiled diff s c Ec Hlarge) as (c0 & Ec0 & H0).
    destruct (rise_checksum_out_of_range s tick diff c0)
      as (s' & E & Ec' & _ & _ & Hlt & H39); [lia | exact Ec0 | exact H0 |].
    pose proof (bit_value_range diff) as Hv.
    pose proof (land_255_range (humidity s + temperature s)) as Hl.
    exists s'. split; [exact E |]. split; [split |].
    + destruct (Z.eq_dec (_bit s) 39) as [E39 | N39].
      * destruct (H39 E39) as [-> _]. lia.
      * rewrite Hlt by lia. lia.
    + intros _. eexists. split; [exact Ec' | lia].
    + intros E39. destruct (H39 E39) as [Eb' Ee'].
      split; [exact Ee' |]. split; [exact Eb' |].
      rewrite Ec'. intros [= Heq]. lia.
  - rewrite rise_complete by lia.
    eexists. split; [reflexivity |]. split.
    + split; cbn; lia.
    + lia.
Qed.

(** It also stays spoiled under every notification that does not start a
    new frame. *)
Lemma spoiled_callback s gpio l tick s' :
  checksum_spoiled s ->
  starts_frame s l tick = false ->
  either_edge_callback s gpio l tick = Ok s' ->
  checksum_spoiled s'.
Proof.
  intros Hs Hstart Hcall. unfold either_edge_callback in Hcall.
  destruct l; cbn [level_handlers mbind result_bind] in Hcall.
  - cbn in Hstart. apply negb_false_iff, Z.leb_le in Hstart.
    rewrite fall_within_frame in Hcall by exact Hstart.
    injection Hcall as <-. exact Hs.
  - destruct (spoiled_rise s tick (Utils.tick_diff (_high_tick s) tick) Hs)
      as (s1 & E & Hs1 & _).
    rewrite E in Hcall. injection Hcall as <-. exact Hs1.
  - injection Hcall as <-. exact Hs.
  - discriminate.
Qed.

Lemma spoiled_run gpio evs s s' :
  checksum_spoiled s ->
  same_frame gpio evs s = true ->
  deliver gpio evs s = Ok s' ->
  checksum_spoiled s'.
Proof.
  revert s. induction evs as [| [l tick] evs IH]; intros s Hs Hsame Hd;
    cbn in Hd, Hsame.
  - injection Hd as <-. exact Hs.
  - apply andb_true_iff in Hsame as [Hstart Hsame].
    apply negb_true_iff in Hstart.
    destruct (either_edge_callback s gpio l tick) as [s1 |] eqn:E;
      cbn in Hd; [| discriminate].
    apply (IH s1); [| exact Hsame | exact Hd].
    exact (spoiled_callback _ _ _ _ _ Hs Hstart E).
Qed.

(** C7.  A rising edge with a diff of 200 or more in the checksum byte
    makes the comparison at the 40th bit of that frame fail, whatever the
    other pulses of the frame are: if the long pulse is the 40th bit itself
    the error is recorded at once; otherwise, after any run of notifications
    that stays within the frame and reaches position 39, the next rising
    edge finds the checksum different from the masked sum and records
    [ERR_CRC]. *)
Theorem long_pulse_in_checksum_byte_forces_crc gpio s tick diff :
  32 <= _bit s <= 39 ->
  diff >= 200 ->
  exists s1,
    _edge_RISE s tick diff = Ok s1 /\
    (_bit s = 39 -> _error s1 = ERR_CRC) /\
    forall evs s2 tick' diff',
      same_frame gpio evs s1 = true ->
      deliver gpio evs s1 = Ok s2 ->
      _bit s2 = 39 ->
      exists s3,
        _edge_RISE s2 tick' diff' = Ok s3 /\
        checksum s3 <> Some (Z.land (humidity s2 + temperature s2) 255) /\
        _error s3 = ERR_CRC.
Proof.
  intros Hb Hd.
  destruct (long_pulse_spoils s tick diff Hb Hd) as (s1 & E & Hs1 & H39).
  exists s1. split; [exact E |]. split; [exact H39 |].
  intros evs s2 tick' diff' Hsame Hrun Hb2.
  pose proof (spoiled_run gpio evs s1 s2 Hs1 Hsame Hrun) as Hs2.
  destruct (spoiled_rise s2 tick' diff' Hs2) as (s3 & E3 & _ & Hcheck).
  destruct (Hcheck Hb2) as (Ee & _ & Hne).
  exists s3. auto.
Qed.

(** The frame 45, 25, 70 up to position 38, where the pulse of the bit 1
    lasts 250 microseconds: the checksum would have matched. *)
Lemma long_pulse_in_checksum_byte_forces_crc_witness :
  let s := {| temperature := 25; humidity := 45; _high_tick := 304000;
              _bit := 38; _error := ERR_NO_ERROR; checksum := Some 17;
              tasks := 0 |} in
  exists s1 s2 s3,
    _edge_RISE s 304250 250 = Ok s1 /\
    deliver 4 [(FALLING_EDGE, 304300)] s1 = Ok s2 /\
    _bit s2 = 39 /\
    _edge_RISE s2 304326 26 = Ok s3 /\
    checksum s3 <> Some (Z.land (humidity s2 + temperature s2) 255) /\
    _error s3 = ERR_CRC.
Proof.
  intros s.
  destruct (long_pulse_in_checksum_byte_forces_crc 4 s 304250 250)
    as (s1 & E1 & _ & Hlater); [cbn; lia | lia |].
  exists s1.
  assert (Hs1 : s1 = {| temperature := 25; humidity := 45;
                        _high_tick := 304000; _bit := 39;
                        _error := ERR_NO_ERROR; checksum := Some 513;
                        tasks := 0 |}).
  { vm_compute in E1. injection E1 as <-. reflexivity. }
  exists {| temperature := 25; humidity := 45; _high_tick := 304300;
            _bit := 39; _error := ERR_NO_ERROR; checksum := Some 513;
            tasks := 0 |}.
  destruct (Hlater [(FALLING_EDGE, 304300)]
              {| temperature := 25; humidity := 45; _high_tick := 304300;
                 _bit := 39; _error := ERR_NO_ERROR; checksum := Some 513;
                 tasks := 0 |} 304326 26) as (s3 & E3 & Hne & Ee).
  - rewrite Hs1. vm_compute. reflexivity.
  - rewrite Hs1. vm_compute. reflexivity.
  - reflexivity.
  - exists s3. split; [exact E1 |].
    split; [rewrite Hs1; vm_compute; reflexivity |].
    split; [reflexivity |]. auto.
Defined.

End Decoder.

(** * Further properties *)

(** ** tick_diff *)

Section TickDiff.
Import Utils.

(** X1.  [tick_diff] returns a value in [0, 2^32) exactly when its two
    arguments are less than 2^32 apart in either direction, and it is then
    the difference modulo 2^32. *)
Theorem tick_diff_in_range_iff t1 t2 :
  (0 <= tick_diff t1 t2 < 2 ^ 32 <-> - 2 ^ 32 <= t2 - t1 < 2 ^ 32) /\
  (- 2 ^ 32 <= t2 - t1 < 2 ^ 32 -> tick_diff t1 t2 = (t2 - t1) mod 2 ^ 32).
Proof.
  unfold tick_diff. rewrite shiftl_1_32.
  change (2 ^ 32) with 4294967296.
  destruct (Z.ltb_spec (t2 - t1) 0) as [Hneg | Hpos].
  - split; [lia |]. intros H.
    apply Z.mod_unique with (q := -1); lia.
  - split; [lia |]. intros H. symmetry. apply Z.mod_small. lia.
Qed.

Lemma tick_diff_in_range_aux t1 t2 :
  - 2 ^ 32 < t2 - t1 < 2 ^ 32 ->
  tick_diff t1 t2 = (t2 - t1) mod 2 ^ 32 /\ 0 <= tick_diff t1 t2 < 2 ^ 32.
Proof.
  intros H. unfold tick_diff. rewrite shiftl_1_32.
  change (2 ^ 32) with 4294967296 in *.
  destruct (Z.ltb_spec (t2 - t1) 0).
  - split; [apply Z.mod_unique with (q := -1) |]; lia.
  - split; [symmetry; apply Z.mod_small |]; lia.
Qed.

Lemma tick_diff_recovers_elapsed_aux t1 d :
  0 <= t1 < 2 ^ 32 ->
  0 <= d < 2 ^ 32 ->
  tick_diff t1 ((t1 + d) mod 2 ^ 32) = d.
Proof.
  intros Ht Hd.
  assert (Hr : 0 <= (t1 + d) mod 2 ^ 32 < 2 ^ 32)
    by (apply Z.mod_pos_bound; reflexivity).
  rewrite tick_diff_mod by assumption.
  rewrite Zminus_mod_idemp_l.
  replace (t1 + d - t1) with d by lia.
  apply Z.mod_small. exact Hd.
Qed.

(** X2.  Adding an elapsed time below 2^32 to a tick, wrapping around at
    2^32, and taking [tick_diff] gives the elapsed time back. *)
Theorem tick_diff_recovers_elapsed t1 d :
  0 <= t1 < 2 ^ 32 ->
  0 <= d < 2 ^ 32 ->
  tick_diff t1 ((t1 + d) mod 2 ^ 32) = d.
Proof.
  intros Ht Hd.
  pose proof (Z.mod_pos_bound (t1 + d) (2 ^ 32) eq_refl) as Hr.
  destruct (tick_diff_in_range_aux t1 ((t1 + d) mod 2 ^ 32)) as [-> _]; [lia |].
  rewrite Zminus_mod_idemp_l.
  replace (t1 + d - t1) with d by lia.
  apply Z.mod_small. exact Hd.
Qed.

Lemma tick_diff_recovers_elapsed_witness :
  tick_diff 4294967272 ((4294967272 + 36) mod 2 ^ 32) = 36.
Proof.
  apply (tick_diff_recovers_elapsed 4294967272 36); lia.
Defined.

(** X3.  For two ticks in [0, 2^32), [tick_diff] is 0 only when they are
    equal, and otherwise the two directions add up to one full turn of the
    counter. *)
Theorem tick_diff_swap t1 t2 :
  0 <= t1 < 2 ^ 32 ->
  0 <= t2 < 2 ^ 32 ->
  (tick_diff t1 t2 = 0 <-> t1 = t2) /\
  (t1 <> t2 -> tick_diff t1 t2 + tick_diff t2 t1 = 2 ^ 32).
Proof.
  intros H1 H2. unfold tick_diff. rewrite shiftl_1_32.
  change (2 ^ 32) with 4294967296 in *.
  destruct (Z.ltb_spec (t2 - t1) 0), (Z.ltb_spec (t1 - t2) 0); lia.
Qed.

Lemma tick_diff_swap_witness :
  (tick_diff 4294967272 12 = 0 <-> 4294967272 = 12) /\
  (4294967272 <> 12 ->
   tick_diff 4294967272 12 + tick_diff 12 4294967272 = 2 ^ 32).
Proof.
  apply (tick_diff_swap 4294967272 12); lia.
Defined.

End TickDiff.

(** ** The debounce decorator, continued *)

Section DebounceRuns.
Import Utils.

(** X4.  Whatever the stored and the incoming tick, a call that reads an
    integer tick returns, and the callback is invoked exactly when
    [tick_diff] of the two exceeds the threshold in microseconds, plus one
    microsecond when the incoming tick is below the stored one. *)
Theorem call_accepts_iff_tick_diff threshold self args tick :
  nth_error args (tick_index self) = Some (VInt tick) ->
  exists o,
    __call__ threshold self args = Ok o /\
    (invoked o <> None <->
     tick_diff (last self) tick >
       threshold * 1000 + (if last self >? tick then 1 else 0)) /\
    (invoked o = None -> self' o = self) /\
    (invoked o <> None ->
     invoked o = Some (_fn self, args) /\ self' o = set_last tick self).
Proof.
  intros Hargs. rewrite (call_with_tick _ _ _ _ Hargs).
  assert (Hd : delay (last self) tick =
               tick_diff (last self) tick -
                 (if last self >? tick then 1 else 0)).
  { destruct (Z.gtb_spec (last self) tick) as [Hw | Hn].
    - rewrite delay_wraparound by lia. reflexivity.
    - rewrite <- delay_nonwrapping_tick_diff by lia. lia. }
  destruct (Z.gtb_spec (delay (last self) tick) (threshold * 1000))
    as [Hacc | Hsup];
    eexists; (split; [reflexivity |]); cbn [invoked self'].
  - split; [split; [lia | discriminate] |]. split; [discriminate | auto].
  - split; [split; [congruence | lia] |]. split; [auto | congruence].
Qed.

Lemma call_accepts_iff_tick_diff_witness :
  exists o,
    __call__ 100 {| _fn := 7; last := 4294867296; is_method := false |}
      [VInt 4; VInt 0; VInt 2] = Ok o /\
    invoked o = Some (7%nat, [VInt 4; VInt 0; VInt 2]).
Proof.
  destruct (call_accepts_iff_tick_diff 100
              {| _fn := 7; last := 4294867296; is_method := false |}
              [VInt 4; VInt 0; VInt 2] 2) as (o & E & Hiff & _ & Hacc).
  - reflexivity.
  - exists o. split; [exact E |]. apply Hacc, Hiff. vm_compute. reflexivity.
Defined.


Lemma last_cons_default (t d : Z) (l : list Z) :
  List.last (t :: l) d = List.last l t.
Proof.
  revert t d. induction l as [| a l IH]; intros t d; [reflexivity |].
  change (List.last (t :: a :: l) d) with (List.last (a :: l) d).
  rewrite (IH a d), (IH a t). reflexivity.
Qed.

Lemma feed_spaced threshold idx fn calls ticks :
  Forall2 (fun args t => nth_error args idx = Some (VInt t)) calls ticks ->
  forall self,
    tick_index self = idx ->
    _fn self = fn ->
    StronglySorted Z.le (last self :: ticks) ->
    exists self1 inv acc,
      feed threshold self calls = Ok (self1, inv) /\
      Forall2 (fun iv t => exists args,
                 iv = (fn, args) /\ In args calls /\
                 nth_error args idx = Some (VInt t)) inv acc /\
      Sorted (fun a b => b - a > threshold * 1000) (last self :: acc) /\
      last self1 = List.last acc (last self).
Proof.
  induction 1 as [| args t calls ticks Hargs _ IH]; intros self Hidx Hfn Hs.
  - exists self, [], []. repeat split; constructor; constructor.
  - apply StronglySorted_inv in Hs as [Hs Hle].
    pose proof (Forall_inv Hle) as Hlt.
    cbn [feed]. rewrite <- Hidx in Hargs.
    rewrite (call_with_tick _ _ _ _ Hargs).
    rewrite (delay_nonwrapping _ _ Hlt).
    destruct (Z.gtb_spec (t - last self) (threshold * 1000)) as [Hacc | Hsup];
      cbn [mbind result_bind self' invoked].
    + destruct (IH (set_last t self)) as (self1 & inv & acc & E & Hinv & Hgap & Hl);
        [exact Hidx | exact Hfn | exact Hs |].
      rewrite E. cbn [mbind result_bind fst snd option_list app].
      exists self1, ((_fn self, args) :: inv), (t :: acc).
      split; [reflexivity |]. split; [| split].
      * constructor.
        -- exists args. rewrite Hfn, <- Hidx. auto using in_eq.
        -- eapply Forall2_impl; [exact Hinv |].
           intros iv t' (a & -> & Hin & Hn). exists a. auto using in_cons.
      * constructor; [exact Hgap |]. constructor. cbn [last set_last] in *. lia.
      * rewrite last_cons_default. exact Hl.
    + destruct (IH self) as (self1 & inv & acc & E & Hinv & Hgap & Hl);
        [exact Hidx | exact Hfn | |].
      { constructor; [apply StronglySorted_inv in Hs as [Hs' _]; exact Hs' |].
        apply Forall_inv_tail in Hle. exact Hle. }
      rewrite E. cbn [mbind result_bind fst snd option_list app].
      exists self1, inv, acc.
      split; [reflexivity |]. split; [| split; assumption].
      eapply Forall2_impl; [exact Hinv |].
      intros iv t' (a & -> & Hin & Hn). exists a. auto using in_cons.
Qed.

(** X6.  A sequence of calls whose ticks never decrease (no wraparound),
    starting at or after the stored tick: every call returns; each
    invocation of the callback that goes through is more than the threshold
    after the previous one (and the first one more than the threshold after
    the tick stored at the start); they carry the arguments of calls of the
    sequence; and the tick stored at the end is the one of the last
    invocation. *)
Theorem accepted_calls_are_spaced threshold self calls ticks :
  Forall2 (fun args t => nth_error args (tick_index self) = Some (VInt t))
          calls ticks ->
  Sorted Z.le (last self :: ticks) ->
  exists self1 inv acc,
    feed threshold self calls = Ok (self1, inv) /\
    Forall2 (fun iv t => exists args,
               iv = (_fn self, args) /\ In args calls /\
               nth_error args (tick_index self) = Some (VInt t)) inv acc /\
    Sorted (fun a b => b - a > threshold * 1000) (last self :: acc) /\
    last self1 = List.last acc (last self).
Proof.
  intros Hcalls Hsorted.
  apply (feed_spaced threshold _ _ calls ticks Hcalls self); try reflexivity.
  apply Sorted_StronglySorted; [| exact Hsorted].
  intros x y z. apply Z.le_trans.
Qed.

Lemma accepted_calls_are_spaced_witness :
  exists self1 inv acc,
    feed 100 (__init__ 7)
      [[VInt 4; VInt 0; VInt 200000]; [VInt 4; VInt 1; VInt 250000];
       [VInt 4; VInt 0; VInt 300001]] = Ok (self1, inv) /\
    Forall2 (fun iv t => exists args,
               iv = (7%nat, args) /\
               In args [[VInt 4; VInt 0; VInt 200000];
                        [VInt 4; VInt 1; VInt 250000];
                        [VInt 4; VInt 0; VInt 300001]] /\
               nth_error args 2 = Some (VInt t)) inv acc /\
    Sorted (fun a b => b - a > 100 * 1000) (0 :: acc) /\
    last self1 = List.last acc 0.
Proof.
  apply (accepted_calls_are_spaced 100 (__init__ 7)
           [[VInt 4; VInt 0; VInt 200000]; [VInt 4; VInt 1; VInt 250000];
            [VInt 4; VInt 0; VInt 300001]] [200000; 250000; 300001]).
  - repeat constructor.
  - repeat constructor; cbn; lia.
Defined.

End DebounceRuns.

(** ** The decoder along a run *)

Section DecoderRuns.
Import DHT11.

(** What a rising edge does to the two data bytes and to the position,
    whatever its diff. *)
Lemma rise_accumulators s tick diff s' :
  _edge_RISE s tick diff = Ok s' ->
  humidity s' =
    (if (0 <=? _bit s) && (_bit s <? 8)
     then 2 * humidity s + bit_value diff else humidity s) /\
  temperature s' =
    (if (16 <=? _bit s) && (_bit s <? 24)
     then 2 * temperature s + bit_value diff else temperature s) /\
  (_bit s < 40 -> _bit s <= _bit s' <= _bit s + 1) /\
  (40 <= _bit s -> _bit s' = 40) /\
  (24 <= _bit s -> _error s' = _error s \/ _error s' = ERR_CRC) /\
  _high_tick s' = _high_tick s /\
  (_bit s < 32 -> _bit s' = _bit s + 1).
Proof.
  unfold _edge_RISE.
  destruct (force_bad_checksum_frame diff s) as (Eb & Eh & Et & Ee & Ek & _).
  rewrite Eb.
  destruct (Z.geb_spec (_bit s) 40) as [H40 | H40].
  { intros [= <-]. cbn. rewrite Eh, Et, Ee, Ek.
    destruct (Z.leb_spec 0 (_bit s)), (Z.ltb_spec (_bit s) 8),
      (Z.leb_spec 16 (_bit s)), (Z.ltb_spec (_bit s) 24); cbn;
      repeat split; auto; lia. }
  destruct (Z.geb_spec (_bit s) 32) as [H32 | H32].
  { unfold get_checksum.
    destruct (checksum (force_bad_checksum diff s)) as [c |];
      cbn [mbind result_bind]; [| discriminate].
    cbn [_bit set_checksum create_task humidity temperature]. rewrite Eb.
    assert (Hh : (0 <=? _bit s) && (_bit s <? 8) = false)
      by (apply andb_false_iff; right; apply Z.ltb_ge; lia).
    assert (Ht : (16 <=? _bit s) && (_bit s <? 24) = false)
      by (apply andb_false_iff; right; apply Z.ltb_ge; lia).
    rewrite Hh, Ht.
    destruct (_bit s =? 39); [destruct (negb _) |];
      intros [= <-]; cbn; rewrite ?Eh, ?Et, ?Ee, ?Ek, ?Eb;
      repeat split; auto; lia. }
  rewrite shiftl_1, shiftl_1.
  destruct (Z.leb_spec 16 (_bit s)), (Z.ltb_spec (_bit s) 24),
    (Z.leb_spec 0 (_bit s)), (Z.ltb_spec (_bit s) 8);
    cbn [andb]; try lia;
    intros [= <-]; cbn; rewrite ?Eh, ?Et, ?Ee, ?Ek, ?Eb;
    repeat split; auto; lia.
Qed.






(** X8.  A run from a fresh decoder never reads the checksum before a
    frame start has assigned it: the only exception a callback can raise is
    [KeyError], for a level that is none of the three keys, and a run whose
    levels are all keys returns. *)
Theorem run_raises_only_key_error gpio evs s0 :
  reachable s0 ->
  (forall e, deliver gpio evs s0 = Raise e -> e = KeyError) /\
  ((forall l tick n, In (l, tick) evs -> l <> other_level n) ->
   exists s, deliver gpio evs s0 = Ok s).
Proof.
  intros Hr. apply reachable_well_formed in Hr.
  revert s0 Hr. induction evs as [| [l tick] evs IH]; intros s0 Hwf.
  - split; [discriminate | eauto].
  - cbn [deliver].
    assert (Hk : (forall n, l <> other_level n) \/ exists n, l = other_level n)
      by (destruct l; eauto; left; discriminate).
    destruct Hk as [Hk | [n ->]].
    + destruct (callback_well_formed s0 gpio l tick Hwf Hk) as (s1 & E & Hwf1).
      rewrite E. cbn [mbind result_bind].
      destruct (IH s1 Hwf1) as [Hraise Hok].
      split; [exact Hraise |]. intros Hkeys. apply Hok.
      intros l' t' n' Hin. apply (Hkeys l' t' n'). right. exact Hin.
    + split.
      * cbn. intros e [= <-]. reflexivity.
      * intros Hkeys.
        destruct (Hkeys (other_level n) tick n); [left |]; reflexivity.
Qed.

Lemma run_raises_only_key_error_witness :
  (forall e,
     deliver 4 [(FALLING_EDGE, 300000); (other_level 7, 300001)] init = Raise e ->
     e = KeyError) /\
  ((forall l tick n,
      In (l, tick) [(FALLING_EDGE, 300000); (other_level 7, 300001)] ->
      l <> other_level n) ->
   exists s,
     deliver 4 [(FALLING_EDGE, 300000); (other_level 7, 300001)] init = Ok s).
Proof.
  apply (run_raises_only_key_error 4
           [(FALLING_EDGE, 300000); (other_level 7, 300001)] init).
  exact reachable_init.
Defined.

(** *** A long pulse anywhere in the frame *)

Lemma force_bad_checksum_out_of_range diff s :
  (diff >= 200 \/ exists c, checksum s = Some c /\ 256 <= c) ->
  exists c0, checksum (force_bad_checksum diff s) = Some c0 /\ 256 <= c0.
Proof.
  intros H. unfold force_bad_checksum.
  destruct (Z.geb_spec diff 200) as [Hlong | Hshort].
  - exists 256. split; [reflexivity | lia].
  - destruct H as [H | H]; [lia | exact H].
Qed.

Lemma out_of_range_rise s tick diff :
  _bit s <= 39 ->
  (diff >= 200 \/ exists c, checksum s = Some c /\ 256 <= c) ->
  exists s',
    _edge_RISE s tick diff = Ok s' /\
    checksum_out_of_range s' /\
    (_bit s = 39 ->
     _error s' = ERR_CRC /\ _bit s' = 39 /\
     checksum s' <> Some (Z.land (humidity s + temperature s) 255)).
Proof.
  intros Hb H.
  destruct (force_bad_checksum_out_of_range diff s H) as (c0 & Ec0 & H0).
  destruct (Z.lt_ge_cases (_bit s) 32) as [Hlo | Hhi].
  - destruct (rise_data s tick diff Hlo) as (s' & E & Eb & _ & _ & Ec & _).
    exists s'. split; [exact E |]. split; [| lia].
    intros _. exists c0. rewrite Ec. auto.
  - destruct (rise_checksum_out_of_range s tick diff c0)
      as (s' & E & Ec' & _ & _ & Hlt & H39); [lia | exact Ec0 | exact H0 |].
    pose proof (bit_value_range diff) as Hv.
    pose proof (land_255_range (humidity s + temperature s)) as Hl.
    exists s'. split; [exact E |]. split.
    + intros _. eexists. split; [exact Ec' | lia].
    + intros E39. destruct (H39 E39) as [Eb' Ee'].
      split; [exact Ee' |]. split; [exact Eb' |].
      rewrite Ec'. intros [= Heq]. lia.
Qed.

Lemma out_of_range_callback s gpio l tick s' :
  checksum_out_of_range s ->
  starts_frame s l tick = false ->
  either_edge_callback s gpio l tick = Ok s' ->
  checksum_out_of_range s'.
Proof.
  intros Hs Hstart Hcall. unfold either_edge_callback in Hcall.
  destruct l; cbn [level_handlers mbind result_bind] in Hcall.
  - cbn in Hstart. apply negb_false_iff, Z.leb_le in Hstart.
    rewrite fall_within_frame in Hcall by exact Hstart.
    injection Hcall as <-. exact Hs.
  - destruct (Z.le_gt_cases (_bit s) 39) as [Hin | Hdone].
    + destruct (out_of_range_rise s tick
                  (Utils.tick_diff (_high_tick s) tick) Hin)
        as (s1 & E & Hs1 & _); [right; exact (Hs Hin) |].
      rewrite E in Hcall. injection Hcall as <-. exact Hs1.
    + rewrite rise_complete in Hcall by lia. injection Hcall as <-.
      intros Hle. cbn in Hle. lia.
  - injection Hcall as <-. exact Hs.
  - discriminate.
Qed.

Lemma out_of_range_run gpio evs s s' :
  checksum_out_of_range s ->
  same_frame gpio evs s = true ->
  deliver gpio evs s = Ok s' ->
  checksum_out_of_range s'.
Proof.
  revert s. induction evs as [| [l tick] evs IH]; intros s Hs Hsame Hd;
    cbn in Hd, Hsame.
  - injection Hd as <-. exact Hs.
  - apply andb_true_iff in Hsame as [Hstart Hsame].
    apply negb_true_iff in Hstart.
    destruct (either_edge_callback s gpio l tick) as [s1 |] eqn:E;
      cbn in Hd; [| discriminate].
    apply (IH s1); [| exact Hsame | exact Hd].
    exact (out_of_range_callback _ _ _ _ _ Hs Hstart E).
Qed.

(** X9.  A rising edge with a diff of 200 or more at any position before
    the frame is complete, header and data bytes included, makes the
    checksum comparison of that frame fail: the handler returns, and after
    any run of notifications that stays within the frame and reaches
    position 39, the next rising edge records [ERR_CRC] and leaves the
    position at 39. *)
Theorem long_pulse_anywhere_forces_crc gpio s tick diff :
  _bit s <= 39 ->
  diff >= 200 ->
  exists s1,
    _edge_RISE s tick diff = Ok s1 /\
    forall evs s2 tick' diff',
      same_frame gpio evs s1 = true ->
      deliver gpio evs s1 = Ok s2 ->
      _bit s2 = 39 ->
      exists s3,
        _edge_RISE s2 tick' diff' = Ok s3 /\
        checksum s3 <> Some (Z.land (humidity s2 + temperature s2) 255) /\
        _error s3 = ERR_CRC /\
        _bit s3 = 39.
Proof.
  intros Hb Hd.
  destruct (out_of_range_rise s tick diff Hb) as (s1 & E & Hs1 & _);
    [left; exact Hd |].
  exists s1. split; [exact E |].
  intros evs s2 tick' diff' Hsame Hrun Hb2.
  pose proof (out_of_range_run gpio evs s1 s2 Hs1 Hsame Hrun) as Hs2.
  destruct (out_of_range_rise s2 tick' diff') as (s3 & E3 & _ & Hcheck);
    [lia | right; apply Hs2; lia |].
  destruct (Hcheck Hb2) as (Ee & Eb & Hne).
  exists s3. auto.
Qed.

(** The frame 45, 25, 70 where the pulse of the third humidity bit lasts
    250 microseconds. *)
Lemma long_pulse_anywhere_forces_crc_witness :
  let s := {| temperature := 0; humidity := 0; _high_tick := 300400;
              _bit := 2; _error := ERR_NO_ERROR; checksum := Some 0;
              tasks := 0 |} in
  let evs := (FALLING_EDGE, 300700) ::
             removelast (removelast
               (pulses 300700 (skipn 5 (frame_bits 45 25 70)))) in
  exists s1 s2 s3,
    _edge_RISE s 300650 250 = Ok s1 /\
    deliver 4 evs s1 = Ok s2 /\
    _bit s2 = 39 /\
    _edge_RISE s2 304326 26 = Ok s3 /\
    _error s3 = ERR_CRC /\
    _bit s3 = 39.
Proof.
  intros s evs.
  destruct (long_pulse_anywhere_forces_crc 4 s 300650 250)
    as (s1 & E1 & Hlater); [cbn; lia | lia |].
  exists s1.
  assert (Hs1 : s1 = {| temperature := 0; humidity := 1;
                        _high_tick := 300400; _bit := 3;
                        _error := ERR_NO_ERROR; checksum := Some 256;
                        tasks := 0 |}).
  { vm_compute in E1. injection E1 as <-. reflexivity. }
  destruct (deliver 4 evs s1) as [s2 |] eqn:E2;
    [| rewrite Hs1 in E2; vm_compute in E2; discriminate].
  exists s2.
  assert (Hb2 : _bit s2 = 39).
  { rewrite Hs1 in E2. vm_compute in E2. injection E2 as <-. reflexivity. }
  destruct (Hlater evs s2 304326 26) as (s3 & E3 & _ & Ee & Eb).
  - rewrite Hs1. vm_compute. reflexivity.
  - exact E2.
  - exact Hb2.
  - exists s3. split; [exact E1 |]. split; [reflexivity |].
    split; [exact Hb2 |]. split; [exact E3 |]. split; [exact Ee | exact Eb].
Defined.

(** *** After the checksum check *)

(** X10.  Once [ERR_CRC] is recorded at a position past the temperature
    byte, it stays recorded for the rest of the frame: no notification that
    stays within the frame clears it, not even a later comparison at
    position 39 that succeeds. *)
Theorem crc_error_persists_within_frame gpio evs s s' :
  _error s = ERR_CRC ->
  24 <= _bit s ->
  same_frame gpio evs s = true ->
  deliver gpio evs s = Ok s' ->
  _error s' = ERR_CRC /\ 24 <= _bit s'.
Proof.
  revert s. induction evs as [| [l tick] evs IH]; intros s He Hb Hsame Hd;
    cbn in Hd, Hsame.
  - injection Hd as <-. auto.
  - apply andb_true_iff in Hsame as [Hstart Hsame].
    apply negb_true_iff in Hstart.
    destruct (either_edge_callback s gpio l tick) as [s1 |] eqn:E;
      cbn in Hd; [| discriminate].
    apply (IH s1); [| | exact Hsame | exact Hd];
      unfold either_edge_callback in E;
      destruct l; cbn [level_handlers mbind result_bind] in E;
      try discriminate.
    + cbn in Hstart. apply negb_false_iff, Z.leb_le in Hstart.
      rewrite fall_within_frame in E by exact Hstart.
      injection E as <-. exact He.
    + apply rise_accumulators in E as (_ & _ & _ & _ & Herr & _).
      destruct (Herr Hb) as [-> | ->]; [exact He | reflexivity].
    + injection E as <-. exact He.
    + cbn in Hstart. apply negb_false_iff, Z.leb_le in Hstart.
      rewrite fall_within_frame in E by exact Hstart.
      injection E as <-. exact Hb.
    + apply rise_accumulators in E as (_ & _ & Hin & Hdone & _).
      destruct (Z.lt_ge_cases (_bit s) 40) as [Hlt | Hge];
        [specialize (Hin Hlt) | rewrite (Hdone Hge)]; lia.
    + injection E as <-. exact Hb.
Qed.

(** The frame 45, 25 with checksum byte 35: the comparison fails at the
    40th bit (35 against 70); a further rising edge carrying a 0 shifts the
    checksum to 70, the comparison succeeds and the position becomes 40,
    but the error is still [ERR_CRC]. *)
Lemma crc_error_persists_within_frame_witness :
  exists s s',
    deliver 4 (frame_events 300000 45 25 35) init = Ok s /\
    _error s = ERR_CRC /\
    _bit s = 39 /\
    deliver 4 [(RISING_EDGE, 304226); (EITHER_EDGE, 0)] s = Ok s' /\
    _bit s' = 40 /\
    checksum s' = Some 70 /\
    _error s' = ERR_CRC.
Proof.
  do 2 eexists. split; [vm_compute; reflexivity |].
  split; [reflexivity |]. split; [reflexivity |].
  split; [vm_compute; reflexivity |].
  split; [reflexivity |]. split; [reflexivity |].
  apply (crc_error_persists_within_frame 4
           [(RISING_EDGE, 304226); (EITHER_EDGE, 0)]
           {| temperature := 25; humidity := 45; _high_tick := 304200;
              _bit := 39; _error := ERR_CRC; checksum := Some 35;
              tasks := 1 |}).
  - reflexivity.
  - cbn. lia.
  - vm_compute. reflexivity.
  - vm_compute. reflexivity.
Defined.

(** X11.  Once the position is 40, the decoded values are frozen until the
    next frame start: any run of notifications that stays within the frame
    leaves humidity, temperature and error as they are and the position at
    40 or beyond. *)
Theorem complete_frame_is_frozen gpio evs s s' :
  40 <= _bit s ->
  same_frame gpio evs s = true ->
  deliver gpio evs s = Ok s' ->
  40 <= _bit s' /\
  humidity s' = humidity s /\
  temperature s' = temperature s /\
  _error s' = _error s /\
  snapshot s' = snapshot s.
Proof.
  revert s. induction evs as [| [l tick] evs IH]; intros s Hb Hsame Hd;
    cbn in Hd, Hsame.
  - injection Hd as <-. auto.
  - apply andb_true_iff in Hsame as [Hstart Hsame].
    apply negb_true_iff in Hstart.
    destruct (either_edge_callback s gpio l tick) as [s1 |] eqn:E;
      cbn in Hd; [| discriminate].
    assert (H1 : 40 <= _bit s1 /\ humidity s1 = humidity s /\
                 temperature s1 = temperature s /\ _error s1 = _error s).
    { unfold either_edge_callback in E.
      destruct l; cbn [level_handlers mbind result_bind] in E;
        try discriminate.
      - cbn in Hstart. apply negb_false_iff, Z.leb_le in Hstart.
        rewrite fall_within_frame in E by exact Hstart.
        injection E as <-. auto.
      - rewrite rise_complete in E by lia. injection E as <-.
        destruct (force_bad_checksum_frame
                    (Utils.tick_diff (_high_tick s) tick) s)
          as (_ & Eh & Et & Ee & _).
        cbn. rewrite Eh, Et, Ee. split; [lia | auto].
      - injection E as <-. auto. }
    destruct H1 as (Hb1 & Eh1 & Et1 & Ee1).
    destruct (IH s1 Hb1 Hsame Hd) as (Hb' & Eh' & Et' & Ee' & _).
    rewrite Eh1 in Eh'. rewrite Et1 in Et'. rewrite Ee1 in Ee'.
    split; [exact Hb' |]. split; [exact Eh' |]. split; [exact Et' |].
    split; [exact Ee' |]. unfold snapshot. rewrite Eh', Et', Ee'. reflexivity.
Qed.

Lemma complete_frame_is_frozen_witness :
  exists s s',
    deliver 4 (frame_events 300000 45 25 70) init = Ok s /\
    deliver 4 [(RISING_EDGE, 304450); (FALLING_EDGE, 304500);
               (RISING_EDGE, 304570); (EITHER_EDGE, 0)] s = Ok s' /\
    40 <= _bit s' /\
    humidity s' = 45 /\
    temperature s' = 25 /\
    _error s' = ERR_NO_ERROR /\
    snapshot s' = snapshot s.
Proof.
  do 2 eexists. split; [vm_compute; reflexivity |].
  split; [vm_compute; reflexivity |].
  apply (complete_frame_is_frozen 4
           [(RISING_EDGE, 304450); (FALLING_EDGE, 304500);
            (RISING_EDGE, 304570); (EITHER_EDGE, 0)]
           {| temperature := 25; humidity := 45; _high_tick := 304200;
              _bit := 40; _error := ERR_NO_ERROR; checksum := Some 70;
              tasks := 1 |}).
  - cbn. lia.
  - vm_compute. reflexivity.
  - vm_compute. reflexivity.
Defined.

(** *** Decoding a frame *)

(** Settle each integer comparison of the goal from the hypotheses. *)
Ltac settle :=
  rewrite ?Z.gtb_ltb, ?Z.geb_leb;
  repeat match goal with
  | |- context [?a <=? ?b] =>
      first [ rewrite (proj2 (Z.leb_le a b)) by lia
            | rewrite (proj2 (Z.leb_gt a b)) by lia ]
  | |- context [?a <? ?b] =>
      first [ rewrite (proj2 (Z.ltb_lt a b)) by lia
            | rewrite (proj2 (Z.ltb_ge a b)) by lia ]
  | |- context [?a =? ?b] =>
      first [ rewrite (proj2 (Z.eqb_eq a b)) by lia
            | rewrite (proj2 (Z.eqb_neq a b)) by lia ]
  end.

(** A short pulse before position 39, field by field. *)
Lemma rise_short s tick diff b c0 :
  diff < 200 ->
  bit_value diff = Z.b2z b ->
  _bit s < 39 ->
  checksum s = Some c0 ->
  exists s1,
    _edge_RISE s tick diff = Ok s1 /\
    _bit s1 = _bit s + 1 /\
    _high_tick s1 = _high_tick s /\
    tasks s1 = tasks s /\
    humidity s1 = absorb 0 (_bit s) (humidity s) b /\
    temperature s1 = absorb 16 (_bit s) (temperature s) b /\
    checksum s1 = Some (absorb 32 (_bit s) c0 b) /\
    _error s1 = (if in_data (_bit s) then ERR_NO_ERROR else _error s).
Proof.
  intros Hd Hv Hb Hc.
  unfold _edge_RISE, get_checksum.
  rewrite force_bad_checksum_short by exact Hd.
  rewrite Hv, Hc, !shiftl_1. unfold absorb, in_data, shift_in.
  assert (Hreg : _bit s < 0 \/ 0 <= _bit s < 8 \/ 8 <= _bit s < 16 \/
                 16 <= _bit s < 24 \/ 24 <= _bit s < 32 \/ 32 <= _bit s)
    by lia.
  destruct Hreg as [H | [H | [H | [H | [H | H]]]]];
    settle; cbn [andb orb mbind result_bind _bit set_checksum];
    settle; eexists; (split; [reflexivity |]); cbn; rewrite ?Hc; auto 10.
Qed.

Lemma carries_cons h evs b bits :
  carries h evs (b :: bits) = true ->
  exists tr tf evs0,
    evs = (RISING_EDGE, tr) :: (FALLING_EDGE, tf) :: evs0 /\
    Utils.tick_diff h tr < 200 /\
    bit_value (Utils.tick_diff h tr) = Z.b2z b /\
    Utils.tick_diff h tf <= 250000 /\
    carries tf evs0 bits = true.
Proof.
  destruct evs as [| [l1 tr] [| [l2 tf] evs0]]; cbn [carries];
    try destruct l1; try destruct l2; try discriminate.
  intros H. repeat (apply andb_true_iff in H as [H ?]).
  exists tr, tf, evs0. split; [reflexivity |].
  split; [apply Z.ltb_lt; assumption |].
  split; [apply Z.eqb_eq; assumption |].
  split; [apply Z.leb_le; assumption | assumption].
Qed.

Lemma carries_nil h evs : carries h evs [] = true -> evs = [].
Proof.
  destruct evs as [| [l1 tr] [| [l2 tf] evs0]]; cbn [carries];
    try destruct l1; try destruct l2; try discriminate; reflexivity.
Qed.

(** One pair of the train: the rising edge, then the falling edge that
    only moves the reference tick. *)
Lemma deliver_pair gpio s tr tf evs s1 :
  _edge_RISE s tr (Utils.tick_diff (_high_tick s) tr) = Ok s1 ->
  _high_tick s1 = _high_tick s ->
  Utils.tick_diff (_high_tick s) tf <= 250000 ->
  deliver gpio ((RISING_EDGE, tr) :: (FALLING_EDGE, tf) :: evs) s =
  deliver gpio evs (set_high_tick tf s1).
Proof.
  intros E Eh Hf. cbn [deliver]. unfold either_edge_callback.
  cbn [level_handlers mbind result_bind]. rewrite E.
  cbn [mbind result_bind]. rewrite Eh, fall_within_frame by exact Hf.
  reflexivity.
Qed.

(** A train of short pulses that ends before position 39. *)
Lemma train_prefix gpio bits :
  forall rest evs s c0,
    carries (_high_tick s) evs (bits ++ rest) = true ->
    _bit s + Z.of_nat (length bits) <= 39 ->
    checksum s = Some c0 ->
    exists evs' s',
      deliver gpio evs s = deliver gpio evs' s' /\
      carries (_high_tick s') evs' rest = true /\
      _bit s' = _bit s + Z.of_nat (length bits) /\
      humidity s' = acc_bits 0 (_bit s) bits (humidity s) /\
      temperature s' = acc_bits 16 (_bit s) bits (temperature s) /\
      checksum s' = Some (acc_bits 32 (_bit s) bits c0) /\
      _error s' = err_bits (_bit s) bits (_error s) /\
      tasks s' = tasks s.
Proof.
  induction bits as [| b bits IH]; intros rest evs s c0 Hcar Hlen Hc.
  - exists evs, s. cbn. rewrite Z.add_0_r. auto 10.
  - cbn [app] in Hcar.
    apply carries_cons in Hcar as (tr & tf & evs0 & -> & Hd & Hv & Hf & Hcar).
    cbn [length] in Hlen. rewrite Nat2Z.inj_succ in Hlen.
    destruct (rise_short s tr (Utils.tick_diff (_high_tick s) tr) b c0)
      as (s1 & E & Eb & Eh & Ea & Ehum & Etemp & Ecs & Eerr);
      [exact Hd | exact Hv | lia | exact Hc |].
    rewrite (deliver_pair gpio s tr tf evs0 s1 E Eh Hf).
    destruct (IH rest evs0 (set_high_tick tf s1) (absorb 32 (_bit s) c0 b))
      as (evs' & s' & Edel & Hcar' & Eb' & Ehum' & Etemp' & Ecs' & Eerr' & Ea');
      [exact Hcar | cbn [_bit set_high_tick]; lia | exact Ecs |].
    cbn [_bit humidity temperature _error tasks set_high_tick] in *.
    exists evs', s'. split; [exact Edel |]. split; [exact Hcar' |].
    cbn [length acc_bits err_bits]. rewrite Nat2Z.inj_succ.
    rewrite Eb', Ehum', Etemp', Ecs', Eerr', Ea', Eb, Ehum, Etemp, Eerr, Ea.
    split; [lia |]. auto 10.
Qed.

(** The 40th bit, when the pulse is short. *)
Lemma rise_last s tick diff b c0 :
  diff < 200 ->
  bit_value diff = Z.b2z b ->
  _bit s = 39 ->
  checksum s = Some c0 ->
  let s1 := create_task (set_checksum (shift_in c0 b) s) in
  _edge_RISE s tick diff =
  if Z.land (humidity s + temperature s) 255 =? shift_in c0 b
  then Ok (set_bit 40 s1)
  else Ok (set_error ERR_CRC s1).
Proof.
  intros Hd Hv Hb Hc s1.
  rewrite (rise_checksum s tick diff c0);
    [| lia | rewrite force_bad_checksum_short by exact Hd; exact Hc].
  rewrite force_bad_checksum_short by exact Hd.
  rewrite Hb, Hv, shiftl_1. reflexivity.
Qed.

(** Split a list of known length into its elements. *)
Ltac explode l H :=
  repeat (destruct l as [| ? l]; cbn [length] in H; try discriminate H).

Local Opaque shift_in.

(** What 41 short pulses leave in the accumulators when the frame starts
    at position -2. *)
Lemma frame_accumulators a1 a2 hb r1 tb r2 cb7 :
  length hb = 8%nat -> length r1 = 8%nat -> length tb = 8%nat ->
  length r2 = 8%nat -> length cb7 = 7%nat ->
  let P := [a1; a2] ++ hb ++ r1 ++ tb ++ r2 ++ cb7 in
  length P = 41%nat /\
  acc_bits 0 (-2) P 0 = byte_of hb /\
  acc_bits 16 (-2) P 0 = byte_of tb /\
  acc_bits 32 (-2) P 0 = byte_of cb7 /\
  (forall e, err_bits (-2) P e = ERR_NO_ERROR).
Proof.
  intros Hh H1 Ht H2 Hc.
  explode hb Hh. explode r1 H1. explode tb Ht. explode r2 H2. explode cb7 Hc.
  cbv zeta. split; [reflexivity |].
  unfold byte_of. cbn. auto.
Qed.

Lemma byte_of_snoc bits b : byte_of (bits ++ [b]) = shift_in (byte_of bits) b.
Proof. unfold byte_of. rewrite fold_left_app. reflexivity. Qed.

Lemma byte_of_byte_bits x : 0 <= x < 256 -> byte_of (byte_bits x) = x.
Proof.
  intros Hx.
  assert (Hall : forallb (fun n => byte_of (byte_bits (Z.of_nat n)) =? Z.of_nat n)
                         (seq 0 256) = true) by (vm_compute; reflexivity).
  rewrite forallb_forall in Hall.
  specialize (Hall (Z.to_nat x)). rewrite Z2Nat.id in Hall by lia.
  apply Z.eqb_eq, Hall, in_seq. lia.
Qed.

(** A frame start followed by a train of 42 short pulses, in terms of the
    bits the pulses carry. *)
Lemma decode_bits gpio s0 t0 evs a1 a2 hb r1 tb r2 cb7 cl :
  length hb = 8%nat -> length r1 = 8%nat -> length tb = 8%nat ->
  length r2 = 8%nat -> length cb7 = 7%nat ->
  Utils.tick_diff (_high_tick s0) t0 > 250000 ->
  carries t0 evs (([a1; a2] ++ hb ++ r1 ++ tb ++ r2 ++ cb7) ++ [cl]) = true ->
  exists s,
    deliver gpio ((FALLING_EDGE, t0) :: evs) s0 = Ok s /\
    humidity s = byte_of hb /\
    temperature s = byte_of tb /\
    checksum s = Some (byte_of (cb7 ++ [cl])) /\
    (Z.land (byte_of hb + byte_of tb) 255 = byte_of (cb7 ++ [cl]) ->
     _error s = ERR_NO_ERROR /\ _bit s = 40) /\
    (Z.land (byte_of hb + byte_of tb) 255 <> byte_of (cb7 ++ [cl]) ->
     _error s = ERR_CRC /\ _bit s = 39).
Proof.
  intros Hh H1 Ht H2 Hc Hstart Hcar.
  destruct (frame_accumulators a1 a2 hb r1 tb r2 cb7 Hh H1 Ht H2 Hc)
    as (Hlen & Ahum & Atemp & Acs & Aerr).
  set (P := [a1; a2] ++ hb ++ r1 ++ tb ++ r2 ++ cb7) in *.
  cbn [deliver]. unfold either_edge_callback.
  cbn [level_handlers mbind result_bind].
  rewrite (fall_starts_frame s0 t0 _ Hstart). cbn [mbind result_bind].
  set (sr := {| temperature := 0; humidity := 0; _high_tick := t0;
                _bit := -2; _error := _error s0; checksum := Some 0;
                tasks := tasks s0 |}).
  destruct (train_prefix gpio P [cl] evs sr 0)
    as (evs' & s' & Edel & Hcar' & Eb & Ehum & Etemp & Ecs & Eerr & _);
    [exact Hcar | rewrite Hlen; cbn; lia | reflexivity |].
  cbn [_bit humidity temperature _error sr] in Eb, Ehum, Etemp, Ecs, Eerr.
  rewrite Hlen in Eb. rewrite Ahum in Ehum. rewrite Atemp in Etemp.
  rewrite Acs in Ecs. rewrite Aerr in Eerr.
  apply carries_cons in Hcar' as (tr & tf & evs0 & -> & Hd & Hv & Hf & Hnil).
  apply carries_nil in Hnil as ->.
  rewrite Edel.
  pose proof (rise_last s' tr (Utils.tick_diff (_high_tick s') tr) cl
                (byte_of cb7) Hd Hv) as E.
  cbv zeta in E. rewrite Ehum, Etemp, <- byte_of_snoc in E.
  specialize (E ltac:(lia) Ecs).
  destruct (Z.eqb_spec (Z.land (byte_of hb + byte_of tb) 255)
              (byte_of (cb7 ++ [cl]))) as [Hm | Hm];
    rewrite (deliver_pair gpio s' tr tf [] _ E eq_refl Hf);
    cbn [deliver]; eexists; (split; [reflexivity |]); cbn;
    rewrite Ehum, Etemp, ?Eerr;
    (split; [reflexivity |]); (split; [reflexivity |]);
    (split; [reflexivity |]); split; intros Hm'; try contradiction; auto.
Qed.

Lemma frame_decodes_aux gpio s0 t0 evs a1 a2 r1 r2 h t c :
  0 <= h < 256 -> 0 <= t < 256 -> 0 <= c < 256 ->
  length r1 = 8%nat -> length r2 = 8%nat ->
  Utils.tick_diff (_high_tick s0) t0 > 250000 ->
  carries t0 evs
    ([a1; a2] ++ byte_bits h ++ r1 ++ byte_bits t ++ r2 ++ byte_bits c) = true ->
  exists s,
    deliver gpio ((FALLING_EDGE, t0) :: evs) s0 = Ok s /\
    humidity s = h /\
    temperature s = t /\
    (c = Z.land (h + t) 255 ->
     _bit s = 40 /\
     snapshot s = {| error_code := ERR_NO_ERROR;
                     result_temperature := t;
                     result_humidity := h |}) /\
    (c <> Z.land (h + t) 255 -> _bit s = 39 /\ _error s = ERR_CRC).
Proof.
  intros Hh Ht Hc H1 H2 Hstart Hcar.
  assert (Hsplit : byte_bits c = removelast (byte_bits c) ++ [Z.testbit c 0])
    by reflexivity.
  rewrite Hsplit, !app_assoc in Hcar. rewrite <- !app_assoc in Hcar.
  rewrite !app_assoc in Hcar.
  destruct (decode_bits gpio s0 t0 evs a1 a2 (byte_bits h) r1 (byte_bits t) r2
              (removelast (byte_bits c)) (Z.testbit c 0))
    as (s & E & Ehum & Etemp & _ & Hgood & Hbad);
    try reflexivity; try assumption.
  { rewrite <- !app_assoc. rewrite <- !app_assoc in Hcar. exact Hcar. }
  rewrite <- Hsplit in Hgood, Hbad.
  rewrite !byte_of_byte_bits in * by assumption.
  exists s. split; [exact E |]. split; [exact Ehum |]. split; [exact Etemp |].
  split.
  - intros ->. destruct Hgood as [Ee Eb]; [reflexivity |].
    split; [exact Eb |]. unfold snapshot. rewrite Ee, Ehum, Etemp. reflexivity.
  - intros Hne. destruct Hbad as [Ee Eb]; [congruence | auto].
Qed.

(** X12.  Every frame decodes: after a falling edge that starts a frame,
    a train of 42 short pulses that carries two header bits, the humidity
    byte, eight reserved bits, the temperature byte, eight reserved bits and
    the checksum byte leaves the two data bytes in [humidity] and
    [temperature], whatever the header and reserved bits, the ticks and the
    state before the frame.  When the checksum byte is the sum of the two
    masked to 8 bits, the error is [ERR_NO_ERROR] and the position 40;
    otherwise the error is [ERR_CRC] and the position stays 39. *)
Theorem frame_decodes gpio s0 t0 evs a1 a2 r1 r2 h t c :
  0 <= h < 256 -> 0 <= t < 256 -> 0 <= c < 256 ->
  length r1 = 8%nat -> length r2 = 8%nat ->
  Utils.tick_diff (_high_tick s0) t0 > 250000 ->
  carries t0 evs
    ([a1; a2] ++ byte_bits h ++ r1 ++ byte_bits t ++ r2 ++ byte_bits c) = true ->
  exists s,
    deliver gpio ((FALLING_EDGE, t0) :: evs) s0 = Ok s /\
    humidity s = h /\
    temperature s = t /\
    (c = Z.land (h + t) 255 ->
     _bit s = 40 /\
     snapshot s = {| error_code := ERR_NO_ERROR;
                     result_temperature := t;
                     result_humidity := h |}) /\
    (c <> Z.land (h + t) 255 -> _bit s = 39 /\ _error s = ERR_CRC).
Proof.
  intros Hh Ht Hc H1 H2 Hstart Hcar.
  assert (Hsplit : byte_bits c = removelast (byte_bits c) ++ [Z.testbit c 0])
    by reflexivity.
  rewrite Hsplit, !app_assoc in Hcar. rewrite <- !app_assoc in Hcar.
  rewrite !app_assoc in Hcar.
  destruct (decode_bits gpio s0 t0 evs a1 a2 (byte_bits h) r1 (byte_bits t) r2
              (removelast (byte_bits c)) (Z.testbit c 0))
    as (s & E & Ehum & Etemp & _ & Hgood & Hbad);
    try reflexivity; try assumption.
  { rewrite <- !app_assoc. rewrite <- !app_assoc in Hcar. exact Hcar. }
  rewrite <- Hsplit in Hgood, Hbad.
  rewrite !byte_of_byte_bits in * by assumption.
  exists s. split; [exact E |]. split; [exact Ehum |]. split; [exact Etemp |].
  split.
  - intros ->. destruct Hgood as [Ee Eb]; [reflexivity |].
    split; [exact Eb |]. unfold snapshot. rewrite Ee, Ehum, Etemp. reflexivity.
  - intros Hne. destruct Hbad as [Ee Eb]; [congruence | auto].
Qed.

Lemma frame_decodes_witness :
  exists s,
    deliver 4 ((FALLING_EDGE, 300000) :: pulses 300000 (frame_bits 45 25 70))
      init = Ok s /\
    humidity s = 45 /\
    temperature s = 25 /\
    (70 = Z.land (45 + 25) 255 ->
     _bit s = 40 /\
     snapshot s = {| error_code := ERR_NO_ERROR;
                     result_temperature := 25;
                     result_humidity := 45 |}) /\
    (70 <> Z.land (45 + 25) 255 -> _bit s = 39 /\ _error s = ERR_CRC).
Proof.
  apply (frame_decodes 4 init 300000 (pulses 300000 (frame_bits 45 25 70))
           false false (byte_bits 0) (byte_bits 0) 45 25 70);
    try lia; reflexivity.
Defined.

(** *** Frames across the wraparound of the tick counter *)

Lemma tick_diff_wrapped t0 d :
  0 <= d < 2 ^ 32 ->
  Utils.tick_diff (t0 mod 2 ^ 32) ((t0 + d) mod 2 ^ 32) = d.
Proof.
  intros Hd. rewrite <- (Zplus_mod_idemp_l t0 d).
  apply tick_diff_recovers_elapsed_aux; [| exact Hd].
  apply Z.mod_pos_bound. reflexivity.
Qed.

Lemma carries_wrapped_pulses bits :
  forall t0, carries (t0 mod 2 ^ 32) (wrap_ticks (pulses t0 bits)) bits = true.
Proof.
  induction bits as [| b bits IH]; intros t0; [reflexivity |].
  cbn [pulses wrap_ticks map carries fst snd].
  rewrite !tick_diff_wrapped by (destruct b; lia).
  fold (wrap_ticks (pulses (t0 + 100) bits)). rewrite IH.
  destruct b; reflexivity.
Qed.

(** X13.  The frame built by [frame_events], with its ticks taken modulo
    2^32, decodes wherever it starts, also when the counter wraps around in
    the middle of the frame: with the checksum byte [(h + t) & 255] the read
    reports no error and the two bytes. *)
Theorem frame_decodes_across_wraparound gpio s0 t0 h t :
  0 <= h < 256 -> 0 <= t < 256 ->
  Utils.tick_diff (_high_tick s0) (t0 mod 2 ^ 32) > 250000 ->
  exists s,
    deliver gpio (wrap_ticks (frame_events t0 h t (Z.land (h + t) 255))) s0 =
      Ok s /\
    _bit s = 40 /\
    snapshot s = {| error_code := ERR_NO_ERROR;
                    result_temperature := t;
                    result_humidity := h |}.
Proof.
  intros Hh Ht Hstart.
  pose proof (land_255_range (h + t)) as Hc.
  destruct (frame_decodes_aux gpio s0 (t0 mod 2 ^ 32)
              (wrap_ticks (pulses t0 (frame_bits h t (Z.land (h + t) 255))))
              false false (byte_bits 0) (byte_bits 0) h t (Z.land (h + t) 255))
    as (s & E & _ & _ & Hgood & _); try lia; try reflexivity; try assumption.
  - apply carries_wrapped_pulses.
  - exists s. split; [exact E |]. apply Hgood. reflexivity.
Qed.

(** The frame starts 2000 microseconds before the counter wraps. *)
Lemma frame_decodes_across_wraparound_witness :
  exists s,
    deliver 4 (wrap_ticks (frame_events 4294965296 45 25 (Z.land (45 + 25) 255)))
      init = Ok s /\
    _bit s = 40 /\
    snapshot s = {| error_code := ERR_NO_ERROR;
                    result_temperature := 25;
                    result_humidity := 45 |}.
Proof.
  apply (frame_decodes_across_wraparound 4 init 4294965296 45 25); try lia.
  vm_compute. reflexivity.
Defined.

End DecoderRuns.

(** ** Reads and watchdog timeouts *)

Section Timeouts.
Import DHT11.

(** X17.  A read is reported valid exactly when no checksum error is
    recorded: in every state a run reaches from a fresh decoder,
    [is_valid] of the result is false only for [ERR_CRC], so the result of a
    read finalized before the 40th bit is valid too. *)
Theorem read_is_valid_unless_crc s :
  reachable s ->
  (is_valid (snapshot s) = true <-> _error s <> ERR_CRC) /\
  (is_valid (snapshot s) = false <-> _error s = ERR_CRC).
Proof.
  intros Hr. destruct (reachable_well_formed s Hr) as (_ & _ & He).
  unfold is_valid, snapshot. cbn [error_code].
  destruct He as [-> | ->]; cbn; split; split; intros H;
    try reflexivity; try discriminate; congruence.
Qed.

Lemma read_is_valid_unless_crc_witness :
  (is_valid (snapshot init) = true <-> _error init <> ERR_CRC) /\
  (is_valid (snapshot init) = false <-> _error init = ERR_CRC).
Proof.
  apply (read_is_valid_unless_crc init). exact reachable_init.
Defined.

Lemma same_decoding_refl s : same_decoding s s.
Proof. repeat split. Qed.

Lemma same_outcome_refl r : same_outcome r r.
Proof. destruct r; cbn; [apply same_decoding_refl | reflexivity]. Qed.

(** The handlers never read the tasks. *)
Lemma callback_same_decoding s s' gpio l tick :
  same_decoding s s' ->
  same_outcome (either_edge_callback s gpio l tick)
               (either_edge_callback s' gpio l tick).
Proof.
  destruct s as [t h ht b e c n], s' as [t' h' ht' b' e' c' n'].
  intros (Et & Eh & Eht & Eb & Ee & Ec). cbn in Et, Eh, Eht, Eb, Ee, Ec.
  subst t' h' ht' b' e' c'.
  unfold either_edge_callback.
  destruct l; cbn [level_handlers mbind result_bind _high_tick];
    [| | | reflexivity].
  - unfold _edge_FALL. destruct (_ <=? 250000); cbn; repeat split.
  - unfold _edge_RISE, force_bad_checksum, get_checksum.
    destruct (_ >=? 200); cbn [_bit set_checksum checksum];
      (destruct (b >=? 40); [cbn; repeat split |]);
      (destruct (b >=? 32);
       [ try (destruct c as [c |]; [| reflexivity]);
         cbn [mbind result_bind _bit set_checksum create_task humidity
              temperature];
         destruct (b =? 39); [destruct (negb _) |]; cbn; repeat split |]);
      (destruct (_ && _); [cbn; repeat split |]);
      (destruct (_ && _); cbn; repeat split).
  - cbn. repeat split.
Qed.

Lemma deliver_same_decoding gpio evs :
  forall s s',
    same_decoding s s' ->
    same_outcome (deliver gpio evs s) (deliver gpio evs s').
Proof.
  induction evs as [| [l tick] evs IH]; intros s s' Hs; [exact Hs |].
  cbn [deliver].
  pose proof (callback_same_decoding s s' gpio l tick Hs) as Hc.
  destruct (either_edge_callback s gpio l tick) as [s1 | e1],
    (either_edge_callback s' gpio l tick) as [s1' | e1'];
    cbn in Hc; try contradiction; cbn [mbind result_bind].
  - apply IH, Hc.
  - exact Hc.
Qed.

Lemma timeout_same_outcome gpio evs1 evs2 tick :
  forall s,
    same_outcome (deliver gpio (evs1 ++ (EITHER_EDGE, tick) :: evs2) s)
                 (deliver gpio (evs1 ++ evs2) s).
Proof.
  induction evs1 as [| [l t1] evs1 IH]; intros s.
  - cbn [app deliver]. unfold either_edge_callback at 1.
    cbn [level_handlers mbind result_bind _edge_EITHER].
    apply deliver_same_decoding. repeat split.
  - cbn [app deliver].
    destruct (either_edge_callback s gpio l t1) as [s1 | e];
      cbn [mbind result_bind]; [apply IH | reflexivity].
Qed.

(** X18.  A watchdog timeout does not disturb the decoding: removing one
    [EITHER_EDGE] notification from anywhere in a run changes neither
    whether the run returns nor the position, the accumulators, the error or
    the result of the read. *)
Theorem timeout_does_not_disturb gpio evs1 evs2 tick s a :
  deliver gpio (evs1 ++ (EITHER_EDGE, tick) :: evs2) s = Ok a ->
  exists b,
    deliver gpio (evs1 ++ evs2) s = Ok b /\
    _bit a = _bit b /\
    checksum a = checksum b /\
    _high_tick a = _high_tick b /\
    snapshot a = snapshot b.
Proof.
  intros Ha. pose proof (timeout_same_outcome gpio evs1 evs2 tick s) as H.
  rewrite Ha in H.
  destruct (deliver gpio (evs1 ++ evs2) s) as [b | e]; [| contradiction].
  destruct H as (Et & Eh & Eht & Eb & Ee & Ec).
  exists b. split; [reflexivity |]. split; [exact Eb |]. split; [exact Ec |].
  split; [exact Eht |]. unfold snapshot. rewrite Et, Eh, Ee. reflexivity.
Qed.

(** The frame 45, 25, 70 with a timeout after its tenth pulse. *)
Lemma timeout_does_not_disturb_witness :
  exists a b,
    deliver 4 (firstn 21 (frame_events 300000 45 25 70) ++
               (EITHER_EDGE, 0) ::
               skipn 21 (frame_events 300000 45 25 70)) init = Ok a /\
    deliver 4 (firstn 21 (frame_events 300000 45 25 70) ++
               skipn 21 (frame_events 300000 45 25 70)) init = Ok b /\
    _bit a = _bit b /\
    checksum a = checksum b /\
    _high_tick a = _high_tick b /\
    snapshot a = snapshot b.
Proof.
  eexists.
  destruct (timeout_does_not_disturb 4
              (firstn 21 (frame_events 300000 45 25 70))
              (skipn 21 (frame_events 300000 45 25 70)) 0 init
              {| temperature := 25; humidity := 45; _high_tick := 304200;
                 _bit := 40; _error := ERR_NO_ERROR; checksum := Some 70;
                 tasks := 2 |}) as (b & E & H).
  - vm_compute. reflexivity.
  - exists b. split; [vm_compute; reflexivity |]. split; [exact E | exact H].
Defined.

End Timeouts.

(** ** The session around the decoder *)

Section Sessions.
Import DHT11 Session.

Lemma registered_call c self :
  registered (log (call c self)) =
  registered (log self) ++
  match c with add_callback_EITHER_EDGE _ cb => [cb] | _ => [] end.
Proof.
  unfold registered. cbn [log call]. rewrite flat_map_app. cbn.
  rewrite app_nil_r. reflexivity.
Qed.

Lemma cancelled_call c self :
  cancelled (log (call c self)) =
  cancelled (log self) ++ match c with cancel cb => [cb] | _ => [] end.
Proof.
  unfold cancelled. cbn [log call]. rewrite flat_map_app. cbn.
  rewrite app_nil_r. reflexivity.
Qed.

Lemma invoke_sound m self :
  subscriptions_sound self ->
  (forall cb, m = Connect cb -> ~ In cb (registered (log self))) ->
  subscriptions_sound (invoke m self) /\
  registered (log (invoke m self)) =
    registered (log self) ++ connect_handles [m].
Proof.
  intros (Hnd & Hincl & Hcb) Hfresh. destruct m as [cb | |].
  - specialize (Hfresh cb eq_refl). cbn [invoke connect_handles flat_map].
    unfold connect, register_callbacks.
    cbn [_gpio call set_either_edge_cb log _either_edge_cb].
    unfold subscriptions_sound.
    cbn [_gpio call set_either_edge_cb log _either_edge_cb].
    unfold registered, cancelled in *.
    rewrite !flat_map_app. cbn [flat_map app]. rewrite !app_nil_r.
    split; [| reflexivity]. split; [exact Hnd |]. split.
    + intros h Hh. apply in_or_app. left. apply Hincl, Hh.
    + intros h [= <-]. split; [apply in_or_app; right; left; reflexivity |].
      intros Hc. apply Hfresh, Hincl, Hc.
  - cbn [invoke connect_handles flat_map]. unfold read.
    unfold subscriptions_sound.
    cbn [_gpio call set_either_edge_cb log _either_edge_cb].
    unfold registered, cancelled in *.
    rewrite !flat_map_app. cbn [flat_map app]. rewrite !app_nil_r.
    auto.
  - cbn [invoke connect_handles flat_map]. unfold close.
    cbn [_gpio call set_either_edge_cb log _either_edge_cb].
    destruct (_either_edge_cb self) as [cb |] eqn:E;
      unfold subscriptions_sound;
      cbn [_gpio call set_either_edge_cb log _either_edge_cb];
      unfold registered, cancelled in *;
      rewrite !flat_map_app; cbn [flat_map app]; rewrite !app_nil_r.
    + destruct (Hcb cb eq_refl) as [Hreg Hnot].
      split; [| reflexivity]. split; [| split].
      * apply NoDup_app. split; [exact Hnd |].
        split; [| apply NoDup_singleton].
        intros h Hh Hin. apply list_elem_of_In in Hh, Hin.
        destruct Hin as [<- | []]. contradiction.
      * intros h Hh. apply in_app_or in Hh as [Hh | [<- | []]]; auto.
      * discriminate.
    + rewrite E. auto.
Qed.

Lemma invoke_all_sound ms :
  forall self,
    subscriptions_sound self ->
    NoDup (connect_handles ms) ->
    (forall cb, In cb (connect_handles ms) ->
                ~ In cb (registered (log self))) ->
    subscriptions_sound (invoke_all ms self) /\
    registered (log (invoke_all ms self)) =
      registered (log self) ++ connect_handles ms.
Proof.
  induction ms as [| m ms IH]; intros self Hs Hnd Hfresh.
  - cbn. rewrite app_nil_r. auto.
  - assert (Hm : connect_handles (m :: ms) =
                 connect_handles [m] ++ connect_handles ms)
      by (unfold connect_handles; cbn [flat_map]; rewrite app_nil_r;
          reflexivity).
    rewrite Hm in *.
    apply NoDup_app in Hnd as (Hnd1 & Hdisj & Hnd2).
    destruct (invoke_sound m self Hs) as [Hs1 Er1].
    { intros cb ->. apply Hfresh. left. reflexivity. }
    destruct (IH (invoke m self) Hs1 Hnd2) as [Hs2 Er2].
    { intros cb Hin. rewrite Er1. intros Hc.
      apply in_app_or in Hc as [Hc | Hc].
      - apply (Hfresh cb); [apply in_or_app; right; exact Hin | exact Hc].
      - apply (Hdisj cb); apply list_elem_of_In; [exact Hc | exact Hin]. }
    change (invoke_all (m :: ms) self) with (invoke_all ms (invoke m self)).
    split; [exact Hs2 |]. rewrite Er2, Er1, <- app_assoc. reflexivity.
Qed.

(** X14.  Whatever sequence of [connect], [read] and [close] a fresh
    sensor goes through, with [add_callback] returning a new handle each
    time: no handle is cancelled twice, only handles that [add_callback]
    returned are cancelled, and the handle the sensor still holds has not
    been cancelled. *)
Theorem session_cancels_soundly gpio ms :
  NoDup (connect_handles ms) ->
  let s := invoke_all ms (new gpio) in
  NoDup (cancelled (log s)) /\
  incl (cancelled (log s)) (registered (log s)) /\
  registered (log s) = connect_handles ms /\
  (forall cb, _either_edge_cb s = Some cb ->
              In cb (registered (log s)) /\ ~ In cb (cancelled (log s))).
Proof.
  intros Hnd s.
  destruct (invoke_all_sound ms (new gpio)) as [(H1 & H2 & H3) Hr].
  - split; [constructor |]. split; [intros h [] |]. discriminate.
  - exact Hnd.
  - intros cb _ [].
  - auto.
Qed.

Lemma session_cancels_soundly_witness :
  let s := invoke_all [Connect 1; Read; Close; Close; Connect 2; Read; Close]
             (new 4) in
  NoDup (cancelled (log s)) /\
  incl (cancelled (log s)) (registered (log s)) /\
  registered (log s) = [1%nat; 2%nat] /\
  (forall cb, _either_edge_cb s = Some cb ->
              In cb (registered (log s)) /\ ~ In cb (cancelled (log s))).
Proof.
  apply (session_cancels_soundly 4
           [Connect 1; Read; Close; Close; Connect 2; Read; Close]).
  cbn. apply NoDup_cons. split; [| apply NoDup_singleton].
  intros H. apply list_elem_of_In in H. destruct H as [[=] | []].
Defined.

Lemma close_closed self :
  _either_edge_cb self = None ->
  close self = call (set_watchdog (_gpio self) 0) self.
Proof.
  intros H. unfold close. cbn [_either_edge_cb call]. rewrite H. reflexivity.
Qed.

Lemma close_gpio self : _gpio (close self) = _gpio self.
Proof.
  unfold close. cbn [_either_edge_cb call _gpio].
  destruct (_either_edge_cb self); reflexivity.
Qed.

Lemma close_decoder self : decoder (close self) = decoder self.
Proof.
  unfold close. cbn [_either_edge_cb call _gpio].
  destruct (_either_edge_cb self); reflexivity.
Qed.

Lemma close_drops_handle self : _either_edge_cb (close self) = None.
Proof.
  unfold close. cbn [_either_edge_cb call _gpio].
  destruct (_either_edge_cb self) eqn:E; [reflexivity | exact E].
Qed.

(** X15.  [close] can be repeated: after one [close] the sensor holds no
    handle, and each further [close] only disables the watchdog again, with
    no further [cancel]. *)
Theorem close_is_repeatable n self :
  let c := close self in
  _either_edge_cb c = None /\
  _either_edge_cb (Nat.iter n close c) = None /\
  log (Nat.iter n close c) = log c ++ repeat (set_watchdog (_gpio self) 0) n /\
  cancelled (log (Nat.iter n close c)) = cancelled (log c) /\
  decoder (Nat.iter n close c) = decoder self.
Proof.
  intros c. split; [apply close_drops_handle |].
  assert (Hg : forall k, _gpio (Nat.iter k close c) = _gpio self).
  { induction k as [| k IH]; [apply close_gpio |].
    change (Nat.iter (S k) close c) with (close (Nat.iter k close c)).
    rewrite close_gpio. exact IH. }
  induction n as [| n (IHcb & IHlog & IHc & IHd)].
  - change (Nat.iter 0 close c) with c. cbn [repeat]. rewrite app_nil_r.
    split; [apply close_drops_handle |]. split; [reflexivity |].
    split; [reflexivity | apply close_decoder].
  - change (Nat.iter (S n) close c) with (close (Nat.iter n close c)).
    rewrite (close_closed _ IHcb), Hg.
    cbn [_either_edge_cb call log decoder].
    split; [exact IHcb |]. split; [| split; [| exact IHd]].
    + rewrite IHlog, <- app_assoc, <- repeat_cons. reflexivity.
    + unfold cancelled in *. rewrite flat_map_app. cbn [flat_map app].
      rewrite app_nil_r. exact IHc.
Qed.

(** *** The loop of main *)

Lemma main_loop_counts max_count results :
  forall count,
    count < max_count ->
    main_loop max_count count results =
    firstn (Z.to_nat (max_count - count)) (List.filter is_valid results).
Proof.
  induction results as [| r results IH]; intros count Hlt.
  - cbn. rewrite firstn_nil. reflexivity.
  - cbn [main_loop List.filter]. destruct (is_valid r).
    + replace (Z.to_nat (max_count - count))
        with (S (Z.to_nat (max_count - (count + 1)))) by lia.
      cbn [firstn].
      destruct (Z.geb_spec (count + 1) max_count) as [Hge | Hlt'].
      * replace (max_count - (count + 1)) with 0 by lia. reflexivity.
      * rewrite (IH (count + 1)) by lia. reflexivity.
    + destruct (Z.geb_spec count max_count) as [Hge | _]; [lia |].
      cbn [app]. apply IH, Hlt.
Qed.

(** X16.  For a [max_count] of at least 1, [main] prints exactly the first
    [max_count] valid results of the iteration, skipping the invalid ones;
    for a [max_count] of 0 or less it stops after the first result, which it
    prints when valid. *)
Theorem main_prints_first_valid max_count results :
  (1 <= max_count ->
   main max_count results =
   firstn (Z.to_nat max_count) (List.filter is_valid results)) /\
  (max_count <= 0 ->
   main max_count results = List.filter is_valid (firstn 1 results)).
Proof.
  split; intros H; unfold main.
  - rewrite main_loop_counts by lia. rewrite Z.sub_0_r. reflexivity.
  - destruct results as [| r results]; [reflexivity |].
    change (firstn 1 (r :: results)) with (r :: firstn 0 results).
    rewrite firstn_O. cbn [main_loop List.filter].
    destruct (is_valid r).
    + destruct (Z.geb_spec (0 + 1) max_count); [reflexivity | lia].
    + destruct (Z.geb_spec 0 max_count); [reflexivity | lia].
Qed.

Lemma main_prints_first_valid_witness :
  main 2 [ {| error_code := ERR_CRC; result_temperature := 25;
              result_humidity := 45 |};
           {| error_code := ERR_NO_ERROR; result_temperature := 25;
              result_humidity := 45 |};
           {| error_code := ERR_NO_ERROR; result_temperature := 26;
              result_humidity := 44 |};
           {| error_code := ERR_NO_ERROR; result_temperature := 27;
              result_humidity := 43 |} ] =
  [ {| error_code := ERR_NO_ERROR; result_temperature := 25;
       result_humidity := 45 |};
    {| error_code := ERR_NO_ERROR; result_temperature := 26;
       result_humidity := 44 |} ].
Proof.
  rewrite (proj1 (main_prints_first_valid 2 _)) by lia. reflexivity.
Defined.

End Sessions.

(** ** Calls through a bound method *)

Section BoundMethods.
Import Utils.

(** X19.  A call through the callable that [__get__] returns for an
    instance is decided by the tick stored in the decorator object of that
    method: when it goes through, the wrapped callback receives the instance
    in front of the arguments and the stored tick becomes the call's tick;
    when it is filtered out, nothing changes.  Either way the decorator
    objects of other callbacks are untouched: each decorated callback has a
    filter of its own. *)
Theorem bound_method_call threshold self (inst : nat) (w : world) d args tick :
  objects w !! self = Some d ->
  nth_error args 2 = Some (VInt tick) ->
  let w1 := (__get__ self inst w).1 in
  let p := (__get__ self inst w).2 in
  exists w2,
    call_partial threshold p args w1 = Some (Ok w2) /\
    (delay (last d) tick > threshold * 1000 ->
     calls w2 = calls w ++ [(_fn d, VRef inst :: args)] /\
     last_of p w2 = Some tick) /\
    (delay (last d) tick <= threshold * 1000 -> w2 = w1) /\
    (forall other, other <> self -> objects w2 !! other = objects w !! other).
Proof.
  intros Hd Hargs w1 p.
  assert (Hw1 : objects w1 !! self = Some (set_is_method d))
    by (subst w1; rewrite get_lookup, Hd; reflexivity).
  assert (Hother : forall other, other <> self ->
                     objects w1 !! other = objects w !! other).
  { intros other Hne. subst w1. cbn. apply lookup_alter_ne. congruence. }
  unfold call_partial. subst p. rewrite get_func, get_bound, Hw1.
  cbn [mbind option_bind].
  rewrite (call_with_tick threshold (set_is_method d) _ tick) by exact Hargs.
  cbn [last set_is_method _fn].
  destruct (Z.gtb_spec (delay (last d) tick) (threshold * 1000)) as [Hacc | Hsup];
    cbn [mbind result_bind self' invoked option_list];
    eexists; (split; [reflexivity |]); cbn [calls objects].
  - split; [| split; [lia |]].
    + intros _. split; [subst w1; reflexivity |].
      unfold last_of. cbn [objects]. rewrite get_func, lookup_insert_eq.
      reflexivity.
    + intros other Hne. rewrite lookup_insert_ne by congruence.
      apply Hother, Hne.
  - split; [lia |]. split.
    + intros _. rewrite insert_id by exact Hw1. rewrite app_nil_r.
      destruct w1; reflexivity.
    + intros other Hne. rewrite lookup_insert_ne by congruence.
      apply Hother, Hne.
Qed.

Lemma bound_method_call_witness :
  let w1 := (__get__ 0 1 class_world).1 in
  let p := (__get__ 0 1 class_world).2 in
  exists w2,
    call_partial 100 p [VInt 4; VInt 0; VInt 50000] w1 = Some (Ok w2) /\
    (delay 0 50000 > 100 * 1000 ->
     calls w2 = [] ++ [(7%nat, [VRef 1; VInt 4; VInt 0; VInt 50000])] /\
     last_of p w2 = Some 50000) /\
    (delay 0 50000 <= 100 * 1000 -> w2 = w1) /\
    (forall other, other <> 0%nat ->
                   objects w2 !! other = objects class_world !! other).
Proof.
  apply (bound_method_call 100 0%nat 1%nat class_world (__init__ 7)
           [VInt 4; VInt 0; VInt 50000] 50000); reflexivity.
Defined.

End BoundMethods.
